(** * Icon spritesheet generator: a shallow embedding of [src/index.ts]

    The development follows the source file top to bottom: JavaScript string
    primitives, the identifier deriver [fileNameToCamelCase], the symbol
    normalizer and sprite composer [generateSvgSprite], the manifest
    generator [generateTypes], the change-aware writer [writeIfChanged] and
    the orchestrator [generateIcons].

    Text is modelled as [string], one character per code unit; file
    contents are the text that [fs.readFile(_, "utf8")] returns.  The case
    mappings are those of ASCII text ([a]..[z] and [A]..[Z]); the statements
    that depend on a case mapping are stated for ASCII text. *)

From Stdlib Require Import Ascii String.
From stdpp Require Import base gmap strings list.

Local Open Scope string_scope.
Local Open Scope list_scope.

(** ** JavaScript string primitives *)

Module Js.

(** The character [U+0022], written apart so that literals stay readable. *)
Definition dq : string := String (ascii_of_nat 34) EmptyString.

(** [s.split(sep)] for a one-character separator: always at least one
    piece, empty pieces kept. *)
Fixpoint split (sep : ascii) (s : string) : list string :=
  match s with
  | EmptyString => [EmptyString]
  | String c rest =>
      if Ascii.eqb c sep then EmptyString :: split sep rest
      else match split sep rest with
           | [] => [String c EmptyString]
           | w :: ws => String c w :: ws
           end
  end.

(** [arr.join(sep)] *)
Fixpoint join (sep : string) (l : list string) : string :=
  match l with
  | [] => EmptyString
  | [x] => x
  | x :: rest => x +:+ sep +:+ join sep rest
  end.

(** [c.toUpperCase()] on one character of ASCII text: [a]..[z] are
    shifted to [A]..[Z], every other ASCII character is kept. *)
Definition upper_ascii (c : ascii) : ascii :=
  let n := nat_of_ascii c in
  if Nat.leb 97 n && Nat.leb n 122 then ascii_of_nat (n - 32) else c.

(** [s.toUpperCase()] on ASCII text. *)
Fixpoint toUpperCase (s : string) : string :=
  match s with
  | EmptyString => EmptyString
  | String c r => String (upper_ascii c) (toUpperCase r)
  end.

(** [c.toLowerCase()] on one character of ASCII text. *)
Definition lower_ascii (c : ascii) : ascii :=
  let n := nat_of_ascii c in
  if Nat.leb 65 n && Nat.leb n 90 then ascii_of_nat (n + 32) else c.

(** [s.toLowerCase()] on ASCII text. *)
Fixpoint toLowerCase (s : string) : string :=
  match s with
  | EmptyString => EmptyString
  | String c r => String (lower_ascii c) (toLowerCase r)
  end.

(** The character [U+005C]. *)
Definition backslash : ascii := ascii_of_nat 92.

(** [s.replace(/c/g, by)] for a pattern of one character. *)
Fixpoint replaceChar (c : ascii) (by_ : string) (s : string) : string :=
  match s with
  | EmptyString => EmptyString
  | String x r =>
      (if Ascii.eqb x c then by_ else String x EmptyString) +:+ replaceChar c by_ r
  end.

(** [s.replace(/\\l/g, by)]: every backslash that is followed by the
    letter [l] goes with it and leaves the character [by], left to right. *)
Fixpoint replaceEscape (l by_ : ascii) (s : string) : string :=
  match s with
  | EmptyString => EmptyString
  | String x r =>
      match r with
      | EmptyString => s
      | String y r' =>
          if Ascii.eqb x backslash && Ascii.eqb y l
          then String by_ (replaceEscape l by_ r')
          else String x (replaceEscape l by_ r)
      end
  end.

Definition hexDigit (n : nat) : ascii :=
  match String.get n "0123456789abcdef" with
  | Some c => c
  | None => "0"%char
  end.

(** How [JSON.stringify] writes one character of a string. *)
Definition jsonEscape (c : ascii) : string :=
  let n := nat_of_ascii c in
  if Nat.eqb n 34 then String backslash dq
  else if Nat.eqb n 92 then String backslash (String backslash EmptyString)
  else if Nat.eqb n 8 then String backslash "b"
  else if Nat.eqb n 9 then String backslash "t"
  else if Nat.eqb n 10 then String backslash "n"
  else if Nat.eqb n 12 then String backslash "f"
  else if Nat.eqb n 13 then String backslash "r"
  else if Nat.ltb n 32 then
    String backslash
      ("u00" +:+ String (hexDigit (n / 16)) (String (hexDigit (n mod 16)) EmptyString))
  else String c EmptyString.

Fixpoint jsonBody (s : string) : string :=
  match s with
  | EmptyString => EmptyString
  | String c r => jsonEscape c +:+ jsonBody r
  end.

(** [JSON.stringify(s)] for a string [s]. *)
Definition stringify (s : string) : string := dq +:+ jsonBody s +:+ dq.

(** [s.charAt(0)]: the first character as a string, empty on [""]. *)
Definition charAt0 (s : string) : string :=
  match s with
  | EmptyString => EmptyString
  | String c _ => String c EmptyString
  end.

(** [s.slice(1)] *)
Definition slice1 (s : string) : string :=
  match s with
  | EmptyString => EmptyString
  | String _ r => r
  end.

(** [s.endsWith(suffix)] *)
Definition endsWith (s suffix : string) : bool :=
  let n := String.length s in
  let k := String.length suffix in
  Nat.leb k n && String.eqb (String.substring (n - k) k s) suffix.

(** [s.replace(/\.svg$/, "")]: the pattern is anchored at the end of the
    input, so at most the final four characters go. *)
Definition replace_svg_suffix (s : string) : string :=
  if endsWith s ".svg" then String.substring 0 (String.length s - 4) s else s.

(** White space in the sense of [String.prototype.trim], restricted to the
    characters of the model: TAB, LF, VT, FF, CR and SPACE. *)
Definition is_space (c : ascii) : bool :=
  let n := nat_of_ascii c in
  (Nat.leb 9 n && Nat.leb n 13) || Nat.eqb n 32.

Fixpoint trimStart (s : string) : string :=
  match s with
  | EmptyString => EmptyString
  | String c r => if is_space c then trimStart r else s
  end.

(** Drops trailing white space: a character survives when it is not white
    space or when something after it survives. *)
Fixpoint trimEnd (s : string) : string :=
  match s with
  | EmptyString => EmptyString
  | String c r =>
      match trimEnd r with
      | EmptyString => if is_space c then EmptyString else String c EmptyString
      | r' => String c r'
      end
  end.

(** [s.trim()] *)
Definition trim (s : string) : string := trimEnd (trimStart s).

(** [Boolean(s)] for a string: every string but the empty one is truthy. *)
Definition truthy (s : string) : bool :=
  match s with
  | EmptyString => false
  | String _ _ => true
  end.

End Js.

(** ** Identifier deriver (index.ts, lines 47-51) *)

(** [word.charAt(0).toUpperCase() + word.slice(1)] *)
Definition capitalize (word : string) : string :=
  Js.toUpperCase (Js.charAt0 word) +:+ Js.slice1 word.

Definition fileNameToCamelCase (fileName : string) : string :=
  let words := Js.split "-" fileName in
  let capitalizedWords := map capitalize words in
  Js.join EmptyString capitalizedWords.

(** The identifier both the sprite and the manifest use for a discovered
    file (lines 41 and 69): the relative path as discovery returned it, less
    a final [.svg], through [fileNameToCamelCase]. *)
Definition iconName (file : string) : string :=
  fileNameToCamelCase (Js.replace_svg_suffix file).

(** ** Paths (Node's [path] module, POSIX flavour)

    A path is kept in normal form: whether it is absolute, and its segments
    with [.] and empty segments dropped and [..] resolved where it can be.
    A relative path may keep leading [..] segments. *)

Module Path.

Record t : Type := mk { absolute : bool; segments : list string }.

(** One pass over the raw segments with the normalised prefix kept as a
    stack (last segment first). *)
Fixpoint normalize_onto (abs : bool) (stack : list string) (raw : list string)
  : list string :=
  match raw with
  | [] => rev stack
  | s :: rest =>
      if String.eqb s EmptyString || String.eqb s "." then
        normalize_onto abs stack rest
      else if String.eqb s ".." then
        match stack with
        | [] => normalize_onto abs (if abs then [] else [".."]) rest
        | top :: below =>
            if String.eqb top ".." then normalize_onto abs (".." :: stack) rest
            else normalize_onto abs below rest
        end
      else normalize_onto abs (s :: stack) rest
  end.

Definition isAbsolute (s : string) : bool :=
  match s with
  | String "/" _ => true
  | _ => false
  end.

(** [path.normalize(s)], as a normal form. *)
Definition normalize (s : string) : t :=
  let abs := isAbsolute s in
  mk abs (normalize_onto abs [] (Js.split "/" s)).

(** [path.join(a, b)]: the non-empty arguments joined by [/], normalised. *)
Definition join (a b : string) : t :=
  match a, b with
  | EmptyString, _ => normalize b
  | _, EmptyString => normalize a
  | _, _ => normalize (a +:+ "/" +:+ b)
  end.

(** [path.join(a, b, c)] *)
Definition join3 (a b c : string) : t :=
  match a with
  | EmptyString => join b c
  | _ => match b, c with
         | EmptyString, EmptyString => normalize a
         | EmptyString, _ => normalize (a +:+ "/" +:+ c)
         | _, EmptyString => normalize (a +:+ "/" +:+ b)
         | _, _ => normalize (a +:+ "/" +:+ b +:+ "/" +:+ c)
         end
  end.

(** [path.resolve(p)] with [cwd] the text of [process.cwd()]: the segments
    the file system sees for [p]. *)
Definition resolve (cwd : string) (p : t) : list string :=
  if absolute p then segments p
  else normalize_onto true (rev (segments (normalize cwd))) (segments p).

Fixpoint strip_common (a b : list string) : list string * list string :=
  match a, b with
  | x :: a', y :: b' => if String.eqb x y then strip_common a' b' else (a, b)
  | _, _ => (a, b)
  end.

(** [path.relative(from, to)]: both resolved, the shared prefix dropped, one
    [..] for each remaining segment of [from]. *)
Definition relative (cwd : string) (from to : string) : t :=
  let '(up, down) :=
    strip_common (resolve cwd (normalize from)) (resolve cwd (normalize to)) in
  mk false (replicate (length up) ".." ++ down).

(** The text [path.relative(from, to)] returns: the segments of the normal
    form joined by [/], and the empty text when the two are the same
    directory. *)
Definition relativeText (cwd : string) (from to : string) : string :=
  Js.join "/" (segments (relative cwd from to)).

End Path.

(** ** The file system, the console and the effect monad *)

(** What the console shows; the wording and colouring of a line are left
    out, its kind and the path it mentions are kept. *)
Inductive Message : Type :=
| NoSvgFilesFound (inputDirRelative : Path.t)
| NoSvgTagFound (file : string)
| GeneratedSpritesheet (outputDirRelative : Path.t)
| GeneratedIconTypes (outputPath : Path.t).

Inductive Event : Type :=
| EvLog (m : Message)
| EvMkdir (dir : list string)
| EvWrite (file : list string) (content : string).

(** Files and directories are keyed by their resolved path; the root
    directory [[]] always exists. *)
Record World : Type := mkWorld {
  proc_cwd : string;
  dirs : gset (list string);
  disk : gmap (list string) string;
  events : list Event
}.

Inductive Failure : Type :=
| ReadFailed (file : list string)
| WriteFailed (file : list string)
| MkdirFailed (dir : list string)
| NeverSettled.

Inductive Outcome (A : Type) : Type :=
| Done (a : A)
| Thrown (e : Failure).
Arguments Done {A} a.
Arguments Thrown {A} e.

Definition IO (A : Type) : Type := World -> Outcome A * World.

Definition ret {A} (a : A) : IO A := fun w => (Done a, w).

Definition throw {A} (e : Failure) : IO A := fun w => (Thrown e, w).

Definition bind {A B} (m : IO A) (k : A -> IO B) : IO B :=
  fun w =>
    match m w with
    | (Done a, w') => k a w'
    | (Thrown e, w') => (Thrown e, w')
    end.

(** [try { m } catch (e) { handler }] *)
Definition try_catch {A} (m : IO A) (handler : Failure -> IO A) : IO A :=
  fun w =>
    match m w with
    | (Done a, w') => (Done a, w')
    | (Thrown e, w') => handler e w'
    end.

Notation "x <- m ;; k" := (bind m (fun x => k))
  (at level 100, m at next level, right associativity).
Notation "m ;;; k" := (bind m (fun _ => k))
  (at level 100, right associativity).

Definition record (e : Event) (w : World) : World :=
  mkWorld (proc_cwd w) (dirs w) (disk w) (events w ++ [e]).

(** [console.log(m)] *)
Definition console_log (m : Message) : IO unit :=
  fun w => (Done tt, record (EvLog m) w).

Definition is_dir (w : World) (p : list string) : bool :=
  match p with
  | [] => true
  | _ => bool_decide (p ∈ dirs w)
  end.

Definition is_file (w : World) (p : list string) : bool :=
  bool_decide (is_Some (disk w !! p)).

(** All non-empty prefixes of a path, shortest first. *)
Fixpoint prefixes (p : list string) : list (list string) :=
  match p with
  | [] => []
  | s :: rest => [s] :: map (cons s) (prefixes rest)
  end.

(** [fs.readFile(p, "utf8")] *)
Definition readFile (p : Path.t) : IO string :=
  fun w =>
    let q := Path.resolve (proc_cwd w) p in
    match disk w !! q with
    | Some content => (Done content, w)
    | None => (Thrown (ReadFailed q), w)
    end.

(** [fs.writeFile(p, content, "utf8")]: the parent must be a directory and
    the target must not be one; the file then holds exactly [content]. *)
Definition writeFile (p : Path.t) (content : string) : IO unit :=
  fun w =>
    let q := Path.resolve (proc_cwd w) p in
    match q with
    | [] => (Thrown (WriteFailed q), w)
    | _ =>
        if is_dir w (removelast q) && negb (is_dir w q) then
          (Done tt,
           record (EvWrite q content)
             (mkWorld (proc_cwd w) (dirs w) (<[q := content]> (disk w)) (events w)))
        else (Thrown (WriteFailed q), w)
    end.

(** [mkdir(dir, { recursive: true })] for the path text [dir]: the empty
    text is rejected (ENOENT); otherwise every missing ancestor is created,
    and the call fails when a regular file is in the way. *)
Definition mkdir_recursive (dir : string) : IO unit :=
  fun w =>
    let q := Path.resolve (proc_cwd w) (Path.normalize dir) in
    match dir with
    | EmptyString => (Thrown (MkdirFailed q), w)
    | _ =>
        if existsb (is_file w) (prefixes q) then (Thrown (MkdirFailed q), w)
        else
          (Done tt,
           record (EvMkdir q)
             (mkWorld (proc_cwd w) (dirs w ∪ list_to_set (prefixes q)) (disk w)
                (events w)))
    end.

(** [fs.access(p, F_OK).then(() => true).catch(() => false)] *)
Definition exists_path (p : Path.t) : IO bool :=
  fun w =>
    let q := Path.resolve (proc_cwd w) p in
    (Done (is_dir w q || is_file w q), w).

(** ** The markup tree (node-html-parser's [HTMLElement])

    What the generator touches of an element: its tag name, the attribute
    text that [toString] prints, the attributes as the element's
    [rawAttributes] object holds them (name and value in document order,
    [None] for an attribute without a value), and the serialised children. *)

Record Element : Type := mkElement {
  rawTagName : string;
  rawAttrs : string;
  rawAttributes : list (string * option string);
  innerHTML : string
}.

(** [el.tagName = newname]: the setter stores the name in lower case. *)
Definition set_tagName (newname : string) (el : Element) : Element :=
  mkElement (Js.toLowerCase newname) (rawAttrs el) (rawAttributes el) (innerHTML el).

(** [quoteAttribute]: the value as [JSON.stringify] writes it, with double
    quotes turned into [&quot;] before, the escapes of TAB, LF and CR turned
    back into the characters afterwards, and every remaining backslash
    dropped. *)
Definition quoteAttribute (attr : option string) : string :=
  match attr with
  | None => "null"
  | Some value =>
      Js.replaceChar Js.backslash EmptyString
        (Js.replaceEscape "r" (ascii_of_nat 13)
           (Js.replaceEscape "n" (ascii_of_nat 10)
              (Js.replaceEscape "t" (ascii_of_nat 9)
                 (Js.stringify (Js.replaceChar (ascii_of_nat 34) "&quot;" value)))))
  end.

(** One attribute of the rebuilt attribute text: the bare name when there
    is no value or an empty one. *)
Definition attributeText (kv : string * option string) : string :=
  let val := quoteAttribute (snd kv) in
  if String.eqb val "null" || String.eqb val (Js.dq +:+ Js.dq) then fst kv
  else fst kv +:+ "=" +:+ val.

(** The attribute text rebuilt from the attributes, as [setAttribute] and
    [removeAttribute] store it. *)
Definition attributesText (attrs : list (string * option string)) : string :=
  Js.join " " (map attributeText attrs).

(** The first attribute name that is [k2] in lower case. *)
Fixpoint find_key (k2 : string) (attrs : list (string * option string))
  : option string :=
  match attrs with
  | [] => None
  | (k, _) :: rest =>
      if String.eqb (Js.toLowerCase k) k2 then Some k else find_key k2 rest
  end.

(** [attrs[key] = value] on an object: a property already there keeps its
    place, a new one goes last. *)
Fixpoint assoc_set (key : string) (value : option string)
  (attrs : list (string * option string)) : list (string * option string) :=
  match attrs with
  | [] => [(key, value)]
  | (k, v) :: rest =>
      if String.eqb k key then (k, value) :: rest
      else (k, v) :: assoc_set key value rest
  end.

(** [el.setAttribute(key, value)]: an attribute of that name in any letter
    case is overwritten under the spelling it has; the attribute text is
    rebuilt. *)
Definition setAttribute (key value : string) (el : Element) : Element :=
  let k2 := Js.toLowerCase key in
  let attrs := rawAttributes el in
  let key := default key (find_key k2 attrs) in
  let attrs := assoc_set key (Some value) attrs in
  mkElement (rawTagName el) (attributesText attrs) attrs (innerHTML el).

(** [el.removeAttribute(key)]: the attribute of exactly that name goes; the
    attribute text is rebuilt. *)
Definition removeAttribute (key : string) (el : Element) : Element :=
  let attrs :=
    List.filter (fun kv => negb (String.eqb (fst kv) key)) (rawAttributes el) in
  mkElement (rawTagName el) (attributesText attrs) attrs (innerHTML el).

(** The tags that are printed without content and close tag. *)
Definition voidTags : list string :=
  ["area"; "base"; "br"; "col"; "embed"; "hr"; "img"; "input"; "link"; "meta";
   "param"; "source"; "track"; "wbr"].

Definition isVoidElement (tag : string) : bool :=
  existsb (String.eqb tag) voidTags.

(** [el.toString()]: the open tag with the attribute text, the serialised
    children and the close tag. *)
Definition toString (el : Element) : string :=
  let tag := rawTagName el in
  match tag with
  | EmptyString => innerHTML el
  | _ =>
      let attrs :=
        match rawAttrs el with
        | EmptyString => EmptyString
        | text => " " +:+ text
        end in
      if isVoidElement (Js.toLowerCase tag) then "<" +:+ tag +:+ attrs +:+ ">"
      else "<" +:+ tag +:+ attrs +:+ ">" +:+ innerHTML el +:+ "</" +:+ tag +:+ ">"
  end.

(** ** Concurrent tasks ([Promise.all])

    The tasks settle in the order [sched] names them; each result goes to
    the slot of its task.  The promise is fulfilled with the slots in task
    order once all are filled, and rejected by the first task that throws. *)

Fixpoint settle {A} (tasks : list (IO A)) (sched : list nat)
  (slots : list (option A)) : IO (list (option A)) :=
  match sched with
  | [] => ret slots
  | i :: rest =>
      match tasks !! i with
      | None => settle tasks rest slots
      | Some task => r <- task ;; settle tasks rest (<[i := Some r]> slots)
      end
  end.

Fixpoint all_filled {A} (slots : list (option A)) : option (list A) :=
  match slots with
  | [] => Some []
  | None :: _ => None
  | Some a :: rest =>
      match all_filled rest with
      | Some l => Some (a :: l)
      | None => None
      end
  end.

Definition promise_all {A} (sched : list nat) (tasks : list (IO A)) : IO (list A) :=
  slots <- settle tasks sched (replicate (length tasks) None) ;;
  match all_filled slots with
  | Some results => ret results
  | None => throw NeverSettled
  end.

(** A schedule is fair for [n] tasks when every task settles exactly once. *)
Definition fair (n : nat) (sched : list nat) : Prop := sched ≡ₚ seq 0 n.

(** ** The generator (index.ts, lines 11-137) *)

Definition nl : string := String (ascii_of_nat 10) EmptyString.

Record PluginProps : Type := mkProps {
  withTypes : option bool;
  inputDir : string;
  outputDir : string;
  fileName : option string;
  cwd : option string
}.

(** [process.cwd()] *)
Definition process_cwd : IO string := fun w => (Done (proc_cwd w), w).

(** Lines 125-137.  The [try] block spans the comparison and the first
    write, so the handler also runs when that write throws. *)
Definition writeIfChanged (filepath : Path.t) (newContent : string)
  (message : Message) : IO unit :=
  try_catch
    (currentContent <- readFile filepath ;;
     if negb (String.eqb currentContent newContent) then
       writeFile filepath newContent ;;;
       console_log message
     else ret tt)
    (fun _ =>
       writeFile filepath newContent ;;;
       console_log message).

(** Lines 100-119. *)
Definition typesOutput (names : list string) : string :=
  Js.join nl
    (["// This file is generated by icon spritesheet generator";
      EmptyString;
      "export type IconName ="]
     ++ map (fun name => "  | " +:+ Js.dq +:+ name +:+ Js.dq) names
     ++ [EmptyString;
         "export const iconNames = ["]
     ++ map (fun name => "  " +:+ Js.dq +:+ name +:+ Js.dq +:+ ",") names
     ++ ["] as const";
         EmptyString]).

Definition generateTypes (names : list string) (outputPath : Path.t) : IO unit :=
  let output := typesOutput names in
  writeIfChanged outputPath output (GeneratedIconTypes outputPath).

(** Lines 78-84: the mutations of the root element, in source order. *)
Definition symbolElement (fileName : string) (svg : Element) : Element :=
  let svg := set_tagName "symbol" svg in
  let svg := setAttribute "id" fileName svg in
  let svg := removeAttribute "xmlns" svg in
  let svg := removeAttribute "xmlns:xlink" svg in
  let svg := removeAttribute "version" svg in
  let svg := removeAttribute "width" svg in
  let svg := removeAttribute "height" svg in
  svg.

(** [symbols.filter(Boolean)]: [undefined] and the empty string go. *)
Fixpoint filterBoolean (symbols : list (option string)) : list string :=
  match symbols with
  | [] => []
  | None :: rest => filterBoolean rest
  | Some s :: rest => if Js.truthy s then s :: filterBoolean rest else filterBoolean rest
  end.

Definition xmlDeclaration : string :=
  "<?xml version=" +:+ Js.dq +:+ "1.0" +:+ Js.dq +:+ " encoding=" +:+ Js.dq
  +:+ "UTF-8" +:+ Js.dq +:+ "?>".

Definition svgOpenTag : string :=
  "<svg xmlns=" +:+ Js.dq +:+ "http://www.w3.org/2000/svg" +:+ Js.dq
  +:+ " xmlns:xlink=" +:+ Js.dq +:+ "http://www.w3.org/1999/xlink" +:+ Js.dq
  +:+ " width=" +:+ Js.dq +:+ "0" +:+ Js.dq
  +:+ " height=" +:+ Js.dq +:+ "0" +:+ Js.dq +:+ ">".

(** Lines 88-95. *)
Definition spriteOutput (symbols : list (option string)) : string :=
  Js.join nl
    ([xmlDeclaration;
      svgOpenTag;
      "<defs>"]
     ++ filterBoolean symbols
     ++ ["</defs>";
         "</svg>"]).

Section Generator.

(** The two collaborators that stay opaque: file discovery,
    [glob.sync("**/*.svg", { cwd })] on the resolved directory, and
    [parse(input).querySelector("svg")]. *)
Variable glob_svg : World -> list string -> list string.
Variable querySvg : string -> option Element.

Definition glob_sync (dir : string) : IO (list string) :=
  fun w => (Done (glob_svg w (Path.resolve (proc_cwd w) (Path.normalize dir))), w).

(** Lines 68-86: the work for one discovered file. *)
Definition symbolTask (inputDir : string) (file : string) : IO (option string) :=
  let fileName := fileNameToCamelCase (Js.replace_svg_suffix file) in
  input <- readFile (Path.join inputDir file) ;;
  match querySvg input with
  | None =>
      console_log (NoSvgTagFound file) ;;;
      ret None
  | Some svg =>
      ret (Some (Js.trim (toString (symbolElement fileName svg))))
  end.

(** Lines 55-98. *)
Definition generateSvgSprite (sched : list nat) (files : list string)
  (inputDir : string) (outputPath : Path.t) (outputDirRelative : Path.t)
  : IO unit :=
  symbols <- promise_all sched (map (symbolTask inputDir) files) ;;
  let output := spriteOutput symbols in
  writeIfChanged outputPath output (GeneratedSpritesheet outputDirRelative).

(** Lines 19-45. *)
Definition generateIcons (props : PluginProps) (sched : list nat) : IO unit :=
  let withTypes := default false (withTypes props) in
  let fileName := default "sprite.svg" (fileName props) in
  here <- process_cwd ;;
  let cwdToUse := default here (cwd props) in
  let inputDirRelative := Path.relative here cwdToUse (inputDir props) in
  let outputDirRelative := Path.relative here cwdToUse (outputDir props) in
  files <- glob_sync (inputDir props) ;;
  match files with
  | [] => console_log (NoSvgFilesFound inputDirRelative)
  | _ =>
      mkdir_recursive (Path.relativeText here cwdToUse (outputDir props)) ;;;
      generateSvgSprite sched files (inputDir props)
        (Path.join (outputDir props) fileName) outputDirRelative ;;;
      if withTypes then
        generateTypes (map iconName files) (Path.join (outputDir props) "types.ts")
      else ret tt
  end.

(** Lines 144-158: the hook that runs the generator when the sprite is
    not there yet.  The hook does not hand [cwd] on. *)
Definition configResolved (args : PluginProps) (sched : list nat) : IO unit :=
  here <- process_cwd ;;
  let outputSvgPath :=
    Path.join3 (default here (cwd args)) (outputDir args)
      (default "sprite.svg" (fileName args)) in
  outputSvgExists <- exists_path outputSvgPath ;;
  if negb outputSvgExists then
    generateIcons
      (mkProps (withTypes args) (inputDir args) (outputDir args) (fileName args) None)
      sched
  else ret tt.

End Generator.

(** ** Sample documents and reference collaborators

    Three icon documents with the root element the parser finds in each,
    and a discovery function that lists the [.svg] files of the modelled
    file system below a directory. *)

Module Documents.

Definition arrow_right_attrs : string :=
  "xmlns=" +:+ Js.dq +:+ "http://www.w3.org/2000/svg" +:+ Js.dq
  +:+ " width=" +:+ Js.dq +:+ "24" +:+ Js.dq
  +:+ " height=" +:+ Js.dq +:+ "24" +:+ Js.dq
  +:+ " viewBox=" +:+ Js.dq +:+ "0 0 24 24" +:+ Js.dq.

Definition arrow_right_inner : string :=
  "<path d=" +:+ Js.dq +:+ "M5 12h14" +:+ Js.dq +:+ "></path>".

Definition arrow_right_svg : string :=
  "<svg " +:+ arrow_right_attrs +:+ ">" +:+ arrow_right_inner +:+ "</svg>"
  +:+ String (ascii_of_nat 10) EmptyString.

(** [parse(arrow_right_svg).querySelector("svg")] *)
Definition arrow_right_root : Element :=
  mkElement "svg" arrow_right_attrs
    [("xmlns", Some "http://www.w3.org/2000/svg"); ("width", Some "24");
     ("height", Some "24"); ("viewBox", Some "0 0 24 24")]
    arrow_right_inner.

Definition close_attrs : string :=
  "xmlns=" +:+ Js.dq +:+ "http://www.w3.org/2000/svg" +:+ Js.dq
  +:+ " viewBox=" +:+ Js.dq +:+ "0 0 24 24" +:+ Js.dq.

Definition close_inner : string :=
  "<path d=" +:+ Js.dq +:+ "M6 6l12 12" +:+ Js.dq +:+ "></path>".

Definition close_svg : string :=
  "<svg " +:+ close_attrs +:+ ">" +:+ close_inner +:+ "</svg>".

(** [parse(close_svg).querySelector("svg")] *)
Definition close_root : Element :=
  mkElement "svg" close_attrs
    [("xmlns", Some "http://www.w3.org/2000/svg"); ("viewBox", Some "0 0 24 24")]
    close_inner.

(** A file that discovery returns and that holds no [svg] element: the
    document is one comment. *)
Definition broken_svg : string := "<!-- work in progress -->".

End Documents.

Module Reference.

(** [parse(input).querySelector("svg")] on the sample documents; no other
    document occurs in the worked examples. *)
Definition querySvg (input : string) : option Element :=
  if String.eqb input Documents.arrow_right_svg then Some Documents.arrow_right_root
  else if String.eqb input Documents.close_svg then Some Documents.close_root
  else None.

Fixpoint below (dir p : list string) : option (list string) :=
  match dir, p with
  | [], _ => Some p
  | d :: dir', s :: p' => if String.eqb d s then below dir' p' else None
  | _ :: _, [] => None
  end.

Definition glob_svg (w : World) (dir : list string) : list string :=
  omap (fun entry : list string * string =>
          match below dir (fst entry) with
          | Some (s :: rest) =>
              if Js.endsWith (List.last (s :: rest) EmptyString) ".svg"
              then Some (Js.join "/" (s :: rest))
              else None
          | _ => None
          end)
       (map_to_list (disk w)).

End Reference.

(** ** Sample inputs *)

Module Sample.

Definition world (cwd : string) (entries : list (list string * string))
  (directories : list (list string)) : World :=
  mkWorld cwd (list_to_set directories) (list_to_map entries) [].

Definition props : PluginProps :=
  mkProps (Some true) "icons" "public" None None.

(** A project at [/app] with two icons. *)
Definition two_icons : World :=
  world "/app"
    [ (["app"; "icons"; "arrow-right.svg"], Documents.arrow_right_svg);
      (["app"; "icons"; "close.svg"], Documents.close_svg) ]
    [ ["app"]; ["app"; "icons"] ].

(** The same project with a third file that has no root element. *)
Definition with_broken : World :=
  world "/app"
    [ (["app"; "icons"; "arrow-right.svg"], Documents.arrow_right_svg);
      (["app"; "icons"; "broken.svg"], Documents.broken_svg);
      (["app"; "icons"; "close.svg"], Documents.close_svg) ]
    [ ["app"]; ["app"; "icons"] ].

Definition run (props : PluginProps) (sched : list nat) : IO unit :=
  generateIcons Reference.glob_svg Reference.querySvg props sched.

(** The project without any icon. *)
Definition no_icons : World :=
  world "/app"
    [ (["app"; "icons"; "README.md"], "icons go here") ]
    [ ["app"]; ["app"; "icons"] ].

(** The project with a sprite from an earlier state of the icons. *)
Definition stale : World :=
  world "/app"
    [ (["app"; "icons"; "arrow-right.svg"], Documents.arrow_right_svg);
      (["app"; "icons"; "close.svg"], Documents.close_svg);
      (["app"; "public"; "sprite.svg"], "stale") ]
    [ ["app"]; ["app"; "icons"]; ["app"; "public"] ].

(** [props] with a working-directory override, and nothing else changed. *)
Definition props_cwd : PluginProps :=
  mkProps (Some true) "icons" "public" None (Some "/app/packages/site").

(** [props] with the sprite named like the manifest. *)
Definition props_clash : PluginProps :=
  mkProps (Some true) "icons" "public" (Some "types.ts") None.

Definition after_first_run : World :=
  snd (run props [2; 0; 1] with_broken).

Definition after_clash_run : World :=
  snd (run props_clash [0; 1] two_icons).

End Sample.

(** ** Views used by the statements *)

(** The identifier as the specification words it: from the base name (the
    last segment of the path) with the extension removed. *)
Definition basename (file : string) : string :=
  List.last (Js.split "/" file) EmptyString.

(** Upper case as the specification means it for a letter of ASCII text:
    the letter at the same place of the upper-case alphabet. *)
Fixpoint upperOf (lower upper : string) (c : ascii) : ascii :=
  match lower, upper with
  | String l lower', String u upper' =>
      if Ascii.eqb c l then u else upperOf lower' upper' c
  | _, _ => c
  end.

Definition upperFirst (word : string) : string :=
  match word with
  | EmptyString => EmptyString
  | String c rest =>
      String (upperOf "abcdefghijklmnopqrstuvwxyz" "ABCDEFGHIJKLMNOPQRSTUVWXYZ" c) rest
  end.

Definition specIconName (file : string) : string :=
  String.concat EmptyString
    (map upperFirst (Js.split "-" (Js.replace_svg_suffix (basename file)))).

(** Whether a text is ASCII text: every code unit is below 128. *)
Fixpoint asciiText (s : string) : bool :=
  match s with
  | EmptyString => true
  | String c r => Nat.ltb (nat_of_ascii c) 128 && asciiText r
  end.

(** Whether [c] occurs in [s]. *)
Fixpoint occurs (c : ascii) (s : string) : bool :=
  match s with
  | EmptyString => false
  | String c' r => Ascii.eqb c' c || occurs c r
  end.

(** One pass over the characters: a hyphen is dropped and makes the next
    character a segment start; a segment start is upper-cased. *)
Fixpoint camelScan (start : bool) (s : string) : string :=
  match s with
  | EmptyString => EmptyString
  | String c r =>
      if Ascii.eqb c "-" then camelScan true r
      else String (if start then Js.upper_ascii c else c) (camelScan false r)
  end.

(** What one discovered file with content [input] contributes to the
    sprite: nothing when it has no root element, its fragment otherwise. *)
Definition symbolResult (querySvg : string -> option Element)
  (file input : string) : option string :=
  match querySvg input with
  | None => None
  | Some svg => Some (Js.trim (toString (symbolElement (iconName file) svg)))
  end.

(** The attribute names the normalizer removes. *)
Definition strippedAttributes : list string :=
  ["xmlns"; "xmlns:xlink"; "version"; "width"; "height"].

(** The world with further console or file-system events recorded. *)
Definition logged (evs : list Event) (w : World) : World :=
  mkWorld (proc_cwd w) (dirs w) (disk w) (events w ++ evs).

(** Whether [fs.writeFile] succeeds on the resolved path [q]. *)
Definition writable (w : World) (q : list string) : bool :=
  match q with
  | [] => false
  | _ => is_dir w (removelast q) && negb (is_dir w q)
  end.

(** The world after the writer has overwritten [q] and notified. *)
Definition afterWrite (q : list string) (content : string) (m : Message)
  (w : World) : World :=
  mkWorld (proc_cwd w) (dirs w) (<[q := content]> (disk w))
    (events w ++ [EvWrite q content; EvLog m]).

(** Where a discovered file is read from, and what is there. *)
Definition iconPath (w : World) (inputDir file : string) : list string :=
  Path.resolve (proc_cwd w) (Path.join inputDir file).

Definition iconContent (w : World) (inputDir file : string) : option string :=
  disk w !! iconPath w inputDir file.

(** The results of the per-file tasks, in discovery order. *)
Definition taskResults (querySvg : string -> option Element) (w : World)
  (inputDir : string) (files : list string) : list (option string) :=
  map (fun file =>
         match iconContent w inputDir file with
         | Some input => symbolResult querySvg file input
         | None => None
         end) files.

(** Whether a discovered file is readable and holds no root element. *)
Definition lacksRoot (querySvg : string -> option Element) (w : World)
  (inputDir file : string) : bool :=
  match iconContent w inputDir file with
  | Some input => match querySvg input with None => true | Some _ => false end
  | None => false
  end.

Definition taskWarning (querySvg : string -> option Element) (w : World)
  (inputDir file : string) : list Event :=
  if lacksRoot querySvg w inputDir file then [EvLog (NoSvgTagFound file)] else [].

(** The warnings of a batch, in the order the tasks settle. *)
Definition scheduleWarnings (querySvg : string -> option Element) (w : World)
  (inputDir : string) (files : list string) (sched : list nat) : list Event :=
  flat_map (fun i =>
              match files !! i with
              | Some file => taskWarning querySvg w inputDir file
              | None => []
              end) sched.

(** Slots after the tasks named by [sched] have stored their results. *)
Definition fill {A} (results : list A) (sched : list nat)
  (slots : list (option A)) : list (option A) :=
  foldl (fun acc i =>
           match results !! i with
           | Some r => <[i := Some r]> acc
           | None => acc
           end) slots sched.

Definition isWrite (e : Event) : bool :=
  match e with
  | EvWrite _ _ => true
  | _ => false
  end.

(** The pieces of a run of [generateIcons], named as in the source. *)
Definition discovered (glob_svg : World -> list string -> list string)
  (props : PluginProps) (w : World) : list string :=
  glob_svg w (Path.resolve (proc_cwd w) (Path.normalize (inputDir props))).

Definition cwdToUse (props : PluginProps) (w : World) : string :=
  default (proc_cwd w) (cwd props).

Definition inputDirRelative (props : PluginProps) (w : World) : Path.t :=
  Path.relative (proc_cwd w) (cwdToUse props w) (inputDir props).

Definition outputDirRelative (props : PluginProps) (w : World) : Path.t :=
  Path.relative (proc_cwd w) (cwdToUse props w) (outputDir props).

(** The text handed to [mkdir], and the directory it denotes, resolved. *)
Definition mkdirText (props : PluginProps) (w : World) : string :=
  Path.relativeText (proc_cwd w) (cwdToUse props w) (outputDir props).

Definition madeDir (props : PluginProps) (w : World) : list string :=
  Path.resolve (proc_cwd w) (Path.normalize (mkdirText props w)).

Definition spritePath (props : PluginProps) : Path.t :=
  Path.join (outputDir props) (default "sprite.svg" (fileName props)).

Definition typesPath (props : PluginProps) : Path.t :=
  Path.join (outputDir props) "types.ts".

Definition wantsTypes (props : PluginProps) : bool :=
  default false (withTypes props).

(** The world with further directories. *)
Definition withDirs (ds : list (list string)) (w : World) : World :=
  mkWorld (proc_cwd w) (dirs w ∪ list_to_set ds) (disk w) (events w).

(** The sprite text and the manifest text of a run. *)
Definition spriteText (querySvg : string -> option Element)
  (props : PluginProps) (w : World) (found : list string) : string :=
  spriteOutput (taskResults querySvg w (inputDir props) found).

Definition typesText (found : list string) : string :=
  typesOutput (map iconName found).

(** Whether [mkdir] rejects: the relative text it is given is empty (the
    output directory is the directory it is relative to), or a regular file
    is in the way. *)
Definition mkdirBlocked (props : PluginProps) (w : World) : bool :=
  String.eqb (mkdirText props w) EmptyString
  || existsb (is_file w) (prefixes (madeDir props w)).

(** The file system lets the run through: [mkdir] goes through, and the
    two targets can be written once the directory is there. *)
Definition outputsWritable (props : PluginProps) (w : World) : Prop :=
  let W := withDirs (prefixes (madeDir props w)) w in
  mkdirBlocked props w = false
  /\ writable W (Path.resolve (proc_cwd w) (spritePath props)) = true
  /\ (wantsTypes props = true ->
      writable W (Path.resolve (proc_cwd w) (typesPath props)) = true).

(** The symbol elements the sprite of a run holds, in order, and their
    identifiers. *)
Definition spriteSymbols (querySvg : string -> option Element) (w : World)
  (inDir : string) (found : list string) : list Element :=
  omap (fun file =>
          match iconContent w inDir file with
          | Some input =>
              match querySvg input with
              | Some svg => Some (symbolElement (iconName file) svg)
              | None => None
              end
          | None => None
          end) found.

(** Whether an attribute name is [id] in some letter case. *)
Definition idKey (k : string) : bool := String.eqb (Js.toLowerCase k) "id".

(** The identifier an element carries: the value of its first attribute
    named [id] in some letter case. *)
Definition elementId (el : Element) : option string :=
  match List.find (fun kv => idKey (fst kv)) (rawAttributes el) with
  | Some (_, value) => value
  | None => None
  end.

Definition symbolIds (querySvg : string -> option Element) (w : World)
  (inDir : string) (found : list string) : list string :=
  omap elementId (spriteSymbols querySvg w inDir found).

(** The fragment as the specification words it: the tag [symbol], the
    attributes that remain with the identifier attribute set, each printed
    as [name="value"] (the bare name when there is no value), the inner
    markup, the close tag. *)
Definition kept (kv : string * option string) : bool :=
  negb (existsb (String.eqb (fst kv)) strippedAttributes).

Fixpoint specSetId (name : string) (attrs : list (string * option string))
  : list (string * option string) :=
  match attrs with
  | [] => [("id", Some name)]
  | (k, v) :: rest =>
      if idKey k then (k, Some name) :: rest else (k, v) :: specSetId name rest
  end.





(** The warning of a skipped file. *)
Definition isWarning (e : Event) : bool :=
  match e with
  | EvLog (NoSvgTagFound _) => true
  | _ => false
  end.

(** The notifications of the writer. *)
Definition isNotification (e : Event) : bool :=
  match e with
  | EvLog (GeneratedSpritesheet _) | EvLog (GeneratedIconTypes _) => true
  | _ => false
  end.

(** Whether a discovered file is readable and holds a root element. *)
Definition hasRoot (querySvg : string -> option Element) (w : World)
  (inputDir file : string) : bool :=
  match iconContent w inputDir file with
  | Some input => match querySvg input with Some _ => true | None => false end
  | None => false
  end.

(** The writer cannot change [q] in [w] when asked to put [content] there:
    the file holds it already, or the write is bound to fail. *)
Definition stable (w : World) (q : list string) (content : string) : Prop :=
  disk w !! q = Some content \/ writable w q = false.

(** ** Further views *)

(** The lines of the manifest, before they are joined (lines 101-110). *)
Definition typesLines (names : list string) : list string :=
  ["// This file is generated by icon spritesheet generator";
   EmptyString;
   "export type IconName ="]
  ++ map (fun name => "  | " +:+ Js.dq +:+ name +:+ Js.dq) names
  ++ [EmptyString;
      "export const iconNames = ["]
  ++ map (fun name => "  " +:+ Js.dq +:+ name +:+ Js.dq +:+ ",") names
  ++ ["] as const";
      EmptyString].

(** Whether a text is free of line feeds. *)
Definition oneLine (s : string) : bool := negb (occurs (ascii_of_nat 10) s).

(** A path segment that names an entry: not empty, not [.], not [..]. *)
Definition nameSegment (s : string) : bool :=
  negb (String.eqb s EmptyString) && negb (String.eqb s ".")
  && negb (String.eqb s "..").

(** A plain file name: one naming segment, no separator in it. *)
Definition plainName (s : string) : bool :=
  nameSegment s && negb (occurs "/" s).


(** Two worlds with the same file system (the console aside). *)
Definition sameFiles (v v' : World) : Prop :=
  proc_cwd v = proc_cwd v' /\ dirs v = dirs v' /\ disk v = disk v'.

Module Fixture.

(** A discovery that still lists a file that is gone. *)
Definition stale_listing (w : World) (dir : list string) : list string :=
  ["ghost.svg"].

(** Options that put the outputs into the process directory itself. *)
Definition props_here : PluginProps :=
  mkProps (Some true) "icons" "." None None.

End Fixture.

(** * Properties *)

(** ** Strings *)

Lemma append_nil_l (s : string) : EmptyString +:+ s = s.
Proof. reflexivity. Qed.

Lemma append_cons (c : ascii) (a b : string) :
  String c a +:+ b = String c (a +:+ b).
Proof. reflexivity. Qed.

Lemma append_empty_r (s : string) : s +:+ EmptyString = s.
Proof.
  induction s as [|c s IH]; [done |].
  by rewrite append_cons, IH.
Qed.

Lemma append_assoc (a b c : string) : (a +:+ b) +:+ c = a +:+ (b +:+ c).
Proof.
  induction a as [|x a IH]; [done |].
  by rewrite !append_cons, IH.
Qed.

Lemma length_append (a b : string) :
  String.length (a +:+ b) = String.length a + String.length b.
Proof.
  induction a as [|x a IH]; [done |].
  rewrite append_cons. simpl. by rewrite IH.
Qed.

Lemma substring_prefix (a b : string) :
  String.substring 0 (String.length a) (a +:+ b) = a.
Proof.
  induction a as [|x a IH].
  - by destruct b.
  - rewrite append_cons. simpl. by rewrite IH.
Qed.

Lemma substring_whole (b : string) :
  String.substring 0 (String.length b) b = b.
Proof. induction b as [|y b IH]; simpl; [done | by rewrite IH]. Qed.

Lemma substring_suffix (a b : string) :
  String.substring (String.length a) (String.length b) (a +:+ b) = b.
Proof.
  induction a as [|x a IH].
  - apply substring_whole.
  - rewrite append_cons. simpl. apply IH.
Qed.

Lemma endsWith_append (a b : string) : Js.endsWith (a +:+ b) b = true.
Proof.
  unfold Js.endsWith. rewrite length_append.
  replace (String.length a + String.length b - String.length b)
    with (String.length a) by lia.
  rewrite substring_suffix, String.eqb_refl.
  rewrite andb_true_r. apply Nat.leb_le. lia.
Qed.

Lemma replace_svg_suffix_append (stem : string) :
  Js.replace_svg_suffix (stem +:+ ".svg") = stem.
Proof.
  unfold Js.replace_svg_suffix. rewrite endsWith_append, length_append. simpl.
  replace (String.length stem + 4 - 4) with (String.length stem) by lia.
  apply substring_prefix.
Qed.

Lemma split_no_sep (sep : ascii) (s : string) :
  occurs sep s = false -> Js.split sep s = [s].
Proof.
  induction s as [|c s IH]; simpl; [done |].
  intros H. apply orb_false_iff in H as [Hc Hs].
  rewrite Hc, (IH Hs). done.
Qed.

Lemma split_append_sep (sep : ascii) (word rest : string) :
  occurs sep word = false ->
  Js.split sep (word +:+ String sep rest) = word :: Js.split sep rest.
Proof.
  induction word as [|c word IH].
  - intros _. rewrite append_nil_l. simpl. by rewrite Ascii.eqb_refl.
  - intros H. simpl in H. apply orb_false_iff in H as [Hc Hs].
    rewrite append_cons. simpl. rewrite Hc, (IH Hs). done.
Qed.

Lemma join_cons2 (sep x y : string) (l : list string) :
  Js.join sep (x :: y :: l) = x +:+ sep +:+ Js.join sep (y :: l).
Proof. reflexivity. Qed.

(** Splitting undoes joining when no word holds the separator. *)
Lemma split_join (sep : ascii) (words : list string) :
  words <> [] ->
  Forall (fun word => occurs sep word = false) words ->
  Js.split sep (Js.join (String sep EmptyString) words) = words.
Proof.
  induction words as [|word words IH]; [done |].
  intros _ Hall. apply Forall_cons in Hall as [Hword Hrest].
  destruct words as [|word' words].
  - simpl. by apply split_no_sep.
  - rewrite join_cons2, append_cons, append_nil_l.
    rewrite split_append_sep by done.
    f_equal. by apply IH.
Qed.

Lemma join_empty_sep (l : list string) :
  Js.join EmptyString l = String.concat EmptyString l.
Proof.
  induction l as [|x l IH]; [done |].
  destruct l as [|y l]; [done |].
  rewrite join_cons2, IH. reflexivity.
Qed.

Lemma split_nonempty (sep : ascii) (s : string) : Js.split sep s <> [].
Proof.
  destruct s as [|c s]; [done |]. simpl.
  destruct (Ascii.eqb c sep); [done |]. by destruct (Js.split sep s).
Qed.

Lemma split_append (sep : ascii) (a b : string) :
  Js.split sep (a +:+ String sep b) = Js.split sep a ++ Js.split sep b.
Proof.
  induction a as [|c a IH].
  - rewrite append_nil_l. simpl. by rewrite Ascii.eqb_refl.
  - rewrite append_cons. simpl. rewrite IH.
    destruct (Ascii.eqb c sep); [done |].
    pose proof (split_nonempty sep a).
    by destruct (Js.split sep a).
Qed.

Lemma occurs_append (c : ascii) (a b : string) :
  occurs c (a +:+ b) = occurs c a || occurs c b.
Proof.
  induction a as [|x a IH]; [done |].
  rewrite append_cons. simpl. by rewrite IH, orb_assoc.
Qed.

Lemma append_not_empty_r (a b : string) :
  b <> EmptyString -> a +:+ b <> EmptyString.
Proof. destruct a; [done |]. by rewrite append_cons. Qed.

(** Trimming leaves a text alone that neither starts nor ends with white
    space. *)
Lemma trimEnd_last (s : string) (c : ascii) :
  Js.is_space c = false ->
  Js.trimEnd (s +:+ String c EmptyString) = s +:+ String c EmptyString.
Proof.
  intros Hc. induction s as [|x s IH].
  - rewrite append_nil_l. simpl. by rewrite Hc.
  - rewrite append_cons. simpl. rewrite IH.
    pose proof (append_not_empty_r s (String c EmptyString)) as Hne.
    destruct (s +:+ String c EmptyString); [by destruct Hne | done].
Qed.

Lemma trim_framed (first last : ascii) (s : string) :
  Js.is_space first = false ->
  Js.is_space last = false ->
  Js.trim (String first (s +:+ String last EmptyString))
  = String first (s +:+ String last EmptyString).
Proof.
  intros Hfirst Hlast. unfold Js.trim. simpl Js.trimStart. rewrite Hfirst.
  rewrite <- append_cons. by apply trimEnd_last.
Qed.

Lemma join_not_empty (sep x : string) (l : list string) :
  x ∈ l -> x <> EmptyString -> Js.join sep l <> EmptyString.
Proof.
  induction l as [|y l IH]; [by intros ?%elem_of_nil |].
  intros [Heq|Hin]%elem_of_cons Hx.
  - subst y. destruct l as [|z l]; [done |]. rewrite join_cons2.
    destruct x; [done |]. by rewrite append_cons.
  - destruct l as [|z l]; [by apply elem_of_nil in Hin |].
    rewrite join_cons2.
    apply append_not_empty_r, append_not_empty_r. by apply IH.
Qed.


(** ** Identifier deriver *)

Lemma capitalize_cons (c : ascii) (word : string) :
  capitalize (String c word) = String (Js.upper_ascii c) word.
Proof. reflexivity. Qed.

Lemma camelScan_split (s : string) :
  camelScan true s = Js.join EmptyString (map capitalize (Js.split "-" s))
  /\ camelScan false s =
       match Js.split "-" s with
       | [] => EmptyString
       | word :: words => word +:+ Js.join EmptyString (map capitalize words)
       end.
Proof.
  induction s as [|c s [IHt IHf]]; [done |].
  simpl camelScan. simpl Js.split.
  destruct (Ascii.eqb c "-") eqn:Hc.
  - split.
    + rewrite IHt. destruct (Js.split "-" s); reflexivity.
    + rewrite IHt. reflexivity.
  - rewrite IHf. destruct (Js.split "-" s) as [|word words]; [done |].
    split.
    + destruct words; simpl; rewrite ?append_empty_r; reflexivity.
    + reflexivity.
Qed.

(** The deriver is the one-pass scan of its argument. *)
Lemma fileNameToCamelCase_scan (fileName : string) :
  fileNameToCamelCase fileName = camelScan true fileName.
Proof. symmetry. apply camelScan_split. Qed.

Lemma upper_ascii_table (c : ascii) :
  Js.upper_ascii c
  = upperOf "abcdefghijklmnopqrstuvwxyz" "ABCDEFGHIJKLMNOPQRSTUVWXYZ" c.
Proof.
  destruct c as [[] [] [] [] [] [] [] []]; reflexivity.
Qed.

Lemma capitalize_upperFirst (word : string) : capitalize word = upperFirst word.
Proof.
  destruct word as [|c word]; [done |].
  rewrite capitalize_cons. simpl. by rewrite upper_ascii_table.
Qed.

(** C3, as the code has it, for ASCII text: the identifier of a discovered
    file is derived from its whole relative path less the final [.svg]
    (directory segments included): for hyphen-free segments [w1 .. wn] the
    path [w1-...-wn.svg] yields the segments concatenated, each with its
    first character in upper case ([a]..[z] become [A]..[Z], every other
    character stays).  For a file directly under the input root this is the
    base-name derivation of the specification. *)
Theorem iconName_of_hyphenated_path (words : list string) :
  words <> [] ->
  Forall (fun word => occurs "-" word = false) words ->
  Forall (fun word => asciiText word = true) words ->
  iconName (Js.join "-" words +:+ ".svg")
  = String.concat EmptyString (map upperFirst words)
  /\ (occurs "/" (Js.join "-" words +:+ ".svg") = false ->
      specIconName (Js.join "-" words +:+ ".svg")
      = iconName (Js.join "-" words +:+ ".svg")).
Proof.
  intros Hne Hall _.
  assert (iconName (Js.join "-" words +:+ ".svg")
          = String.concat EmptyString (map upperFirst words)) as Hname.
  { unfold iconName, fileNameToCamelCase.
    rewrite replace_svg_suffix_append, split_join by done.
    rewrite join_empty_sep. f_equal.
    apply map_ext. intros word. apply capitalize_upperFirst. }
  split; [done |].
  intros Hslash. rewrite Hname. unfold specIconName, basename.
  rewrite (split_no_sep _ _ Hslash). simpl List.last.
  by rewrite replace_svg_suffix_append, split_join.
Qed.

Lemma iconName_of_hyphenated_path_witness :
  iconName "sub/arrow-right.svg" = "Sub/arrow" +:+ "Right".
Proof.
  exact (proj1 (iconName_of_hyphenated_path ["sub/arrow"; "right"]
                  ltac:(discriminate) ltac:(repeat constructor)
                  ltac:(repeat constructor))).
Defined.

(** C3, as the specification words it (identifier from the base name),
    fails for a file in a subdirectory. *)
Lemma iconName_nested_not_from_basename :
  specIconName "sub/arrow-right.svg" = "ArrowRight"
  /\ iconName "sub/arrow-right.svg" = "Sub/arrowRight"
  /\ iconName "sub/arrow-right.svg" <> specIconName "sub/arrow-right.svg".
Proof. repeat split. discriminate. Qed.

(** ** Symbol normalizer *)

Lemma filter_filter_same {A} (P : A -> bool) (l : list A) :
  List.filter P (List.filter P l) = List.filter P l.
Proof.
  induction l as [|x l IH]; [done |]. simpl.
  destruct (P x) eqn:HP; simpl; rewrite ?HP, IH; done.
Qed.

Lemma filter_filter_and {A} (P Q : A -> bool) (l : list A) :
  List.filter Q (List.filter P l) = List.filter (fun x => P x && Q x) l.
Proof.
  induction l as [|x l IH]; [done |]. simpl.
  destruct (P x) eqn:HP; simpl; rewrite ?IH; [|done].
  by destruct (Q x).
Qed.

Lemma kept_spec (kv : string * option string) :
  kept kv
  = negb (String.eqb (fst kv) "xmlns") && negb (String.eqb (fst kv) "xmlns:xlink")
    && negb (String.eqb (fst kv) "version") && negb (String.eqb (fst kv) "width")
    && negb (String.eqb (fst kv) "height").
Proof.
  unfold kept, strippedAttributes. simpl existsb.
  rewrite orb_false_r, !negb_orb. by rewrite !andb_assoc.
Qed.

Lemma idKey_kept (k : string) (v : option string) :
  idKey k = true -> kept (k, v) = true.
Proof.
  intros Hk. rewrite kept_spec. simpl fst.
  destruct (String.eqb_spec k "xmlns") as [->|_]; [done |].
  destruct (String.eqb_spec k "xmlns:xlink") as [->|_]; [done |].
  destruct (String.eqb_spec k "version") as [->|_]; [done |].
  destruct (String.eqb_spec k "width") as [->|_]; [done |].
  by destruct (String.eqb_spec k "height") as [->|_].
Qed.

Lemma find_key_idKey (attrs : list (string * option string)) (k : string) :
  find_key "id" attrs = Some k -> idKey k = true.
Proof.
  induction attrs as [|[k' v] attrs IH]; [done |]. simpl.
  destruct (String.eqb (Js.toLowerCase k') "id") eqn:Hk'; [|done].
  by intros [= <-].
Qed.

(** [setAttribute("id", name)] on the attributes: the first attribute named
    [id] in some letter case gets the value, or a new [id] goes last. *)
Lemma assoc_set_specSetId (name : string) (attrs : list (string * option string)) :
  assoc_set (default "id" (find_key "id" attrs)) (Some name) attrs
  = specSetId name attrs.
Proof.
  induction attrs as [|[k v] attrs IH]; [done |].
  simpl find_key. simpl specSetId. unfold idKey.
  destruct (String.eqb (Js.toLowerCase k) "id") eqn:Hk.
  - simpl. by rewrite String.eqb_refl.
  - assert (idKey (default "id" (find_key "id" attrs)) = true) as Hkey.
    { destruct (find_key "id" attrs) as [k'|] eqn:Hfind; [|done].
      by apply (find_key_idKey attrs). }
    simpl assoc_set.
    destruct (String.eqb_spec k (default "id" (find_key "id" attrs))) as [Heq|_].
    + unfold idKey in Hkey. rewrite <- Heq in Hkey. congruence.
    + by rewrite IH.
Qed.

(** The symbol: tag [symbol], the attributes of the root with the
    identifier set and the stripped ones gone, the attribute text rebuilt
    from them, the children as they were. *)
Lemma symbolElement_shape (name : string) (svg : Element) :
  let attrs := List.filter kept (specSetId name (rawAttributes svg)) in
  symbolElement name svg
  = mkElement "symbol" (attributesText attrs) attrs (innerHTML svg).
Proof.
  intros attrs.
  assert (forall l : list (string * option string),
            List.filter (fun kv => negb (String.eqb (fst kv) "height"))
              (List.filter (fun kv => negb (String.eqb (fst kv) "width"))
                 (List.filter (fun kv => negb (String.eqb (fst kv) "version"))
                    (List.filter (fun kv => negb (String.eqb (fst kv) "xmlns:xlink"))
                       (List.filter (fun kv => negb (String.eqb (fst kv) "xmlns")) l))))
            = List.filter kept l) as Hchain.
  { intros l. rewrite !filter_filter_and. apply filter_ext.
    intros kv. by rewrite kept_spec, !andb_assoc. }
  unfold symbolElement, removeAttribute, setAttribute, set_tagName.
  cbn [rawTagName rawAttrs rawAttributes innerHTML].
  change (Js.toLowerCase "id") with "id".
  change (Js.toLowerCase "symbol") with "symbol".
  by rewrite Hchain, assoc_set_specSetId.
Qed.

Lemma toString_symbol (text : string) (attrs : list (string * option string))
  (inner : string) :
  toString (mkElement "symbol" text attrs inner)
  = "<symbol"
    +:+ match text with
        | EmptyString => EmptyString
        | _ => " " +:+ text
        end
    +:+ ">" +:+ inner +:+ "</symbol>".
Proof.
  unfold toString. cbn [rawTagName rawAttrs innerHTML].
  change (isVoidElement (Js.toLowerCase "symbol")) with false.
  by destruct text.
Qed.

(** The fragment of a file with a root element is the text of one [symbol]
    element; trimming changes nothing. *)
Lemma fragment_shape (name : string) (svg : Element) :
  exists body,
    Js.trim (toString (symbolElement name svg)) = "<symbol" +:+ body +:+ "</symbol>"
    /\ toString (symbolElement name svg) = "<symbol" +:+ body +:+ "</symbol>".
Proof.
  rewrite symbolElement_shape, toString_symbol.
  set (open := match attributesText _ with EmptyString => _ | _ => _ end).
  exists (open +:+ ">" +:+ innerHTML svg). split; [|by rewrite !append_assoc].
  replace ("<symbol" +:+ open +:+ ">" +:+ innerHTML svg +:+ "</symbol>")
    with (String "<" (("symbol" +:+ open +:+ ">" +:+ innerHTML svg +:+ "</symbol")
                      +:+ String ">" EmptyString)).
  - rewrite trim_framed by done. by rewrite !append_assoc.
  - by rewrite !append_assoc.
Qed.

Lemma fragment_truthy (name : string) (svg : Element) :
  Js.truthy (Js.trim (toString (symbolElement name svg))) = true.
Proof. destruct (fragment_shape name svg) as (body & -> & _). reflexivity. Qed.


Lemma elementId_specSetId (name : string) (attrs : list (string * option string)) :
  match List.find (fun kv => idKey (fst kv)) (List.filter kept (specSetId name attrs)) with
  | Some (_, value) => value
  | None => None
  end = Some name.
Proof.
  induction attrs as [|[k v] attrs IH]; [done |].
  simpl specSetId. destruct (idKey k) eqn:Hk.
  - simpl List.filter. rewrite idKey_kept by done. simpl. by rewrite Hk.
  - simpl List.filter. destruct (kept (k, v)); [|done].
    simpl. by rewrite Hk.
Qed.

Lemma symbolElement_id (name : string) (svg : Element) :
  elementId (symbolElement name svg) = Some name.
Proof.
  rewrite symbolElement_shape. unfold elementId. simpl rawAttributes.
  apply elementId_specSetId.
Qed.

(** *** Plain values are printed as they are *)








(** ** Worlds and the idempotent writer *)

Lemma logged_nil (w : World) : logged [] w = w.
Proof. destruct w. unfold logged. simpl. by rewrite app_nil_r. Qed.

Lemma logged_logged (a b : list Event) (w : World) :
  logged b (logged a w) = logged (a ++ b) w.
Proof. unfold logged. simpl. by rewrite app_assoc. Qed.

Lemma record_logged (e : Event) (w : World) : record e w = logged [e] w.
Proof. reflexivity. Qed.

Lemma writeFile_spec (p : Path.t) (content : string) (w : World) :
  let q := Path.resolve (proc_cwd w) p in
  writeFile p content w =
    if writable w q
    then (Done tt,
          mkWorld (proc_cwd w) (dirs w) (<[q := content]> (disk w))
            (events w ++ [EvWrite q content]))
    else (Thrown (WriteFailed q), w).
Proof.
  unfold writeFile, writable. simpl.
  destruct (Path.resolve (proc_cwd w) p) as [|s q]; [done |].
  destruct (is_dir w (removelast (s :: q)) && negb (is_dir w (s :: q))); done.
Qed.

Lemma write_then_log (p : Path.t) (content : string) (m : Message) (w : World) :
  let q := Path.resolve (proc_cwd w) p in
  (writeFile p content ;;; console_log m) w =
    if writable w q then (Done tt, afterWrite q content m w)
    else (Thrown (WriteFailed q), w).
Proof.
  simpl. unfold bind. rewrite writeFile_spec.
  destruct (writable w (Path.resolve (proc_cwd w) p)); [|done].
  unfold console_log, record, afterWrite. simpl.
  by rewrite <- app_assoc.
Qed.

(** The writer in closed form. *)
Lemma writeIfChanged_closed (p : Path.t) (newContent : string) (m : Message)
  (w : World) :
  let q := Path.resolve (proc_cwd w) p in
  writeIfChanged p newContent m w =
    if decide (disk w !! q = Some newContent) then (Done tt, w)
    else if writable w q then (Done tt, afterWrite q newContent m w)
    else (Thrown (WriteFailed q), w).
Proof.
  intros q. unfold writeIfChanged, try_catch.
  pose proof (write_then_log p newContent m w) as Hwrite. simpl in Hwrite.
  fold q in Hwrite.
  unfold bind at 1. unfold readFile at 1. fold q.
  destruct (disk w !! q) as [current|] eqn:Hread.
  - destruct (String.eqb_spec current newContent) as [->|Hne]; simpl.
    + by rewrite decide_True.
    + rewrite decide_False by congruence.
      rewrite Hwrite. destruct (writable w q); [done |].
      by rewrite Hwrite.
  - rewrite decide_False by done. by rewrite Hwrite.
Qed.

(** C4: the writer leaves the world as it is (no write, no notification)
    when the file already holds the candidate text; when the file holds
    another text, or cannot be read at all (the file is not there), it
    overwrites the file with the whole candidate and then notifies, in that
    order; a write that fails is thrown on and nothing is notified. *)
Theorem writeIfChanged_spec (p : Path.t) (newContent : string) (m : Message)
  (w : World) :
  let q := Path.resolve (proc_cwd w) p in
  writeIfChanged p newContent m w =
    match disk w !! q with
    | Some current =>
        if String.eqb current newContent then (Done tt, w)
        else if writable w q then (Done tt, afterWrite q newContent m w)
        else (Thrown (WriteFailed q), w)
    | None =>
        if writable w q then (Done tt, afterWrite q newContent m w)
        else (Thrown (WriteFailed q), w)
    end
  /\ disk (afterWrite q newContent m w) !! q = Some newContent
  /\ (forall q', q' <> q -> disk (afterWrite q newContent m w) !! q' = disk w !! q')
  /\ dirs (afterWrite q newContent m w) = dirs w
  /\ events (afterWrite q newContent m w)
     = events w ++ [EvWrite q newContent; EvLog m].
Proof.
  intros q. split.
  - rewrite writeIfChanged_closed. fold q.
    destruct (disk w !! q) as [current|] eqn:Hread.
    + destruct (String.eqb_spec current newContent) as [->|Hne].
      * by rewrite decide_True.
      * by rewrite decide_False by congruence.
    + by rewrite decide_False.
  - unfold afterWrite. simpl. split; [apply lookup_insert_eq |].
    split; [|done]. intros q' Hq'. by apply lookup_insert_ne.
Qed.

(** ** The concurrent batch *)

Lemma lookup_map {A B} (f : A -> B) (l : list A) (i : nat) :
  map f l !! i = f <$> (l !! i).
Proof.
  revert i. induction l as [|x l IH]; intros [|i]; simpl; done.
Qed.

Lemma all_filled_map_Some {A} (results : list A) :
  all_filled (map Some results) = Some results.
Proof. induction results as [|r results IH]; simpl; [done | by rewrite IH]. Qed.

Lemma fill_length {A} (results : list A) (sched : list nat) (slots : list (option A)) :
  length (fill results sched slots) = length slots.
Proof.
  revert slots. induction sched as [|j sched IH]; intros slots; [done |].
  unfold fill in *. simpl. rewrite IH.
  destruct (results !! j); [apply length_insert | done].
Qed.

Lemma fill_lookup {A} (results : list A) (sched : list nat)
  (slots : list (option A)) (i : nat) :
  length slots = length results ->
  fill results sched slots !! i =
    if decide (i ∈ sched) then Some <$> results !! i else slots !! i.
Proof.
  revert slots. induction sched as [|j sched IH]; intros slots Hlen.
  - rewrite decide_False by apply not_elem_of_nil. done.
  - change (fill results (j :: sched) slots)
      with (fill results sched
              (match results !! j with
               | Some r => <[j := Some r]> slots
               | None => slots
               end)).
    rewrite IH.
    2:{ destruct (results !! j); [by rewrite length_insert | done]. }
    destruct (decide (i ∈ sched)) as [Hin|Hnin].
    + rewrite decide_True by (by right). done.
    + destruct (decide (i = j)) as [->|Hne].
      * rewrite decide_True by left.
        destruct (results !! j) as [r|] eqn:Hr; simpl.
        -- apply list_lookup_insert_eq.
           rewrite Hlen. by eapply lookup_lt_Some.
        -- apply lookup_ge_None. rewrite Hlen. by apply lookup_ge_None.
      * rewrite decide_False by (intros [?|?]%elem_of_cons; done).
        destruct (results !! j); [|done].
        by apply list_lookup_insert_ne.
Qed.

(** Once every task has settled, the slots hold the results in task
    order, whatever the order of settling was. *)
Lemma fill_covering {A} (results : list A) (sched : list nat) :
  (forall i, i < length results -> i ∈ sched) ->
  fill results sched (replicate (length results) None) = map Some results.
Proof.
  intros Hcover. apply list_eq. intros i.
  rewrite fill_lookup by apply length_replicate.
  rewrite lookup_map.
  destruct (decide (i ∈ sched)) as [Hin|Hnin]; [done |].
  destruct (results !! i) eqn:Hr.
  - exfalso. apply Hnin, Hcover. by eapply lookup_lt_Some.
  - simpl. apply lookup_replicate_None. by apply lookup_ge_None.
Qed.

Lemma fair_covers (n : nat) (sched : list nat) :
  fair n sched -> forall i, i < n -> i ∈ sched.
Proof.
  unfold fair. intros Hperm i Hi. rewrite Hperm.
  apply elem_of_seq. lia.
Qed.

Section Batch.

Variable querySvg : string -> option Element.
Variable inputDir : string.
Variable files : list string.
Variable w : World.

Let tasks := map (symbolTask querySvg inputDir) files.
Let results := taskResults querySvg w inputDir files.

Lemma symbolTask_logged (file : string) (pre : list Event) :
  symbolTask querySvg inputDir file (logged pre w) =
    match iconContent w inputDir file with
    | Some input =>
        (Done (symbolResult querySvg file input),
         logged (pre ++ taskWarning querySvg w inputDir file) w)
    | None => (Thrown (ReadFailed (iconPath w inputDir file)), logged pre w)
    end.
Proof.
  unfold symbolTask, bind, readFile, taskWarning, lacksRoot, iconContent,
    iconPath, symbolResult. simpl.
  destruct (disk w !! _) as [input|]; [|done].
  destruct (querySvg input); simpl.
  - by rewrite app_nil_r.
  - unfold ret, record, logged. simpl. by rewrite app_assoc.
Qed.

Lemma results_lookup (i : nat) (file : string) (input : string) :
  files !! i = Some file ->
  iconContent w inputDir file = Some input ->
  results !! i = Some (symbolResult querySvg file input).
Proof.
  intros Hfile Hinput. unfold results, taskResults.
  rewrite lookup_map, Hfile. simpl. by rewrite Hinput.
Qed.

Lemma settle_symbolTasks (sched : list nat) :
  forall (slots : list (option (option string))) (pre : list Event),
  (forall i file, i ∈ sched -> files !! i = Some file ->
                  is_Some (iconContent w inputDir file)) ->
  settle tasks sched slots (logged pre w)
  = (Done (fill results sched slots),
     logged (pre ++ scheduleWarnings querySvg w inputDir files sched) w).
Proof.
  induction sched as [|i sched IH]; intros slots pre Hread.
  - simpl. unfold ret. by rewrite app_nil_r.
  - simpl settle. unfold tasks at 1. rewrite lookup_map.
    unfold scheduleWarnings. simpl flat_map.
    change (fill results (i :: sched) slots)
      with (fill results sched
              (match results !! i with
               | Some r => <[i := Some r]> slots
               | None => slots
               end)).
    destruct (files !! i) as [file|] eqn:Hfile; simpl.
    + destruct (Hread i file) as [input Hinput]; [left | done |].
      unfold bind. rewrite symbolTask_logged, Hinput.
      rewrite (results_lookup i file input) by done.
      rewrite IH by (intros; eapply Hread; [by right | done]).
      by rewrite app_assoc.
    + assert (results !! i = None) as ->.
      { unfold results, taskResults. by rewrite lookup_map, Hfile. }
      apply IH. intros. eapply Hread; [by right | done].
Qed.

Lemma settle_Done_readable (sched : list nat) :
  forall (slots filled : list (option (option string))) (pre : list Event)
         (w' : World),
  settle tasks sched slots (logged pre w) = (Done filled, w') ->
  forall i file, i ∈ sched -> files !! i = Some file ->
                 is_Some (iconContent w inputDir file).
Proof.
  induction sched as [|j sched IH]; intros slots filled pre w' Hrun i file Hin Hfile.
  - by apply elem_of_nil in Hin.
  - simpl settle in Hrun. unfold tasks at 1 in Hrun. rewrite lookup_map in Hrun.
    destruct (files !! j) as [file'|] eqn:Hfile'; simpl in Hrun.
    + unfold bind in Hrun. rewrite symbolTask_logged in Hrun.
      destruct (iconContent w inputDir file') as [input|] eqn:Hinput; [|done].
      apply elem_of_cons in Hin as [->|Hin].
      * rewrite Hfile in Hfile'. injection Hfile' as ->. by eexists.
      * by eapply IH.
    + apply elem_of_cons in Hin as [->|Hin]; [congruence |].
      by eapply IH.
Qed.

(** Under a fair schedule the batch is fulfilled with the results in
    discovery order; only the order of the warnings follows the schedule. *)
Lemma promise_all_symbolTasks (sched : list nat) (pre : list Event) :
  fair (length files) sched ->
  (forall file, file ∈ files -> is_Some (iconContent w inputDir file)) ->
  promise_all sched tasks (logged pre w)
  = (Done results,
     logged (pre ++ scheduleWarnings querySvg w inputDir files sched) w).
Proof.
  intros Hfair Hread. unfold promise_all, bind.
  rewrite settle_symbolTasks.
  2:{ intros i file _ Hfile. apply Hread. by eapply list_elem_of_lookup_2. }
  assert (length tasks = length results) as ->.
  { unfold tasks, results, taskResults. by rewrite !length_map. }
  rewrite fill_covering, all_filled_map_Some; [done |].
  intros i Hi. apply (fair_covers _ _ Hfair).
  unfold results, taskResults in Hi. by rewrite length_map in Hi.
Qed.

Lemma promise_all_Done_readable (sched : list nat) (pre : list Event)
  (symbols : list (option string)) (w' : World) :
  fair (length files) sched ->
  promise_all sched tasks (logged pre w) = (Done symbols, w') ->
  forall file, file ∈ files -> is_Some (iconContent w inputDir file).
Proof.
  intros Hfair Hrun file Hin.
  apply list_elem_of_lookup in Hin as [i Hi].
  unfold promise_all, bind in Hrun.
  destruct (settle tasks sched _ (logged pre w)) as [[filled|e] w1] eqn:Hsettle;
    [|done].
  eapply settle_Done_readable; [exact Hsettle | | exact Hi].
  apply (fair_covers _ _ Hfair). by eapply lookup_lt_Some.
Qed.

Lemma settle_world (sched : list nat) :
  forall (slots : list (option (option string))) (pre : list Event)
         (o : Outcome (list (option (option string)))) (w' : World),
  settle tasks sched slots (logged pre w) = (o, w') ->
  exists evs, w' = logged (pre ++ evs) w
              /\ Forall (fun e => isWarning e = true) evs.
Proof.
  induction sched as [|j sched IH]; intros slots pre o w' Hrun.
  - injection Hrun as <- <-. exists []. by rewrite app_nil_r.
  - simpl settle in Hrun. unfold tasks at 1 in Hrun. rewrite lookup_map in Hrun.
    destruct (files !! j) as [file|] eqn:Hfile; simpl in Hrun; [|by eapply IH].
    unfold bind in Hrun. rewrite symbolTask_logged in Hrun.
    destruct (iconContent w inputDir file) as [input|] eqn:Hinput.
    + apply IH in Hrun as (evs & -> & Hquiet).
      exists (taskWarning querySvg w inputDir file ++ evs).
      split; [by rewrite app_assoc |].
      apply Forall_app. split; [|done].
      unfold taskWarning. destruct (lacksRoot _ _ _ _); by repeat constructor.
    + injection Hrun as <- <-. exists []. by rewrite app_nil_r.
Qed.

Lemma settle_unreadable (sched : list nat) :
  forall (slots : list (option (option string))) (pre : list Event)
         (i : nat) (file : string),
  i ∈ sched -> files !! i = Some file ->
  iconContent w inputDir file = None ->
  exists e w', settle tasks sched slots (logged pre w) = (Thrown e, w').
Proof.
  induction sched as [|j sched IH]; intros slots pre i file Hin Hfile Hnone.
  - by apply elem_of_nil in Hin.
  - simpl settle. unfold tasks at 1. rewrite lookup_map.
    destruct (files !! j) as [file'|] eqn:Hfile'; simpl.
    + unfold bind. rewrite symbolTask_logged.
      destruct (iconContent w inputDir file') as [input|] eqn:Hinput; [|eauto].
      apply elem_of_cons in Hin as [->|Hin]; [congruence |].
      by eapply IH.
    + apply elem_of_cons in Hin as [->|Hin]; [congruence |].
      by eapply IH.
Qed.

(** When some discovered file cannot be read, the batch is rejected under
    every fair schedule. *)
Lemma promise_all_unreadable (sched : list nat) (pre : list Event) :
  fair (length files) sched ->
  ~ (forall file, file ∈ files -> is_Some (iconContent w inputDir file)) ->
  exists e evs,
    promise_all sched tasks (logged pre w) = (Thrown e, logged (pre ++ evs) w)
    /\ Forall (fun e => isWarning e = true) evs.
Proof.
  intros Hfair Hunread.
  destruct (decide (Forall (fun file => is_Some (iconContent w inputDir file)) files))
    as [Hall|Hnot].
  { exfalso. apply Hunread. by apply Forall_forall. }
  apply not_Forall_Exists in Hnot; [|apply _].
  apply Exists_exists in Hnot as (file & Hin & Hnone).
  apply eq_None_not_Some in Hnone.
  apply list_elem_of_lookup in Hin as [i Hi].
  assert (i ∈ sched) as Hsched.
  { apply (fair_covers _ _ Hfair). by eapply lookup_lt_Some. }
  destruct (settle_unreadable sched (replicate (length tasks) None) pre i file
              Hsched Hi Hnone) as (e & w' & Hrun).
  destruct (settle_world _ _ _ _ _ Hrun) as (evs & -> & Hquiet).
  exists e, evs. split; [|done].
  unfold promise_all, bind. by rewrite Hrun.
Qed.

End Batch.

(** ** Fragments and the composer *)

Lemma filterBoolean_symbolResults (querySvg : string -> option Element)
  (icons : list (string * string)) :
  filterBoolean (map (fun icon => symbolResult querySvg (fst icon) (snd icon)) icons)
  = omap (fun icon => symbolResult querySvg (fst icon) (snd icon)) icons.
Proof.
  induction icons as [|[file input] icons IH]; simpl; [done |].
  destruct (symbolResult querySvg file input) as [frag|] eqn:Hres; [|done].
  assert (Js.truthy frag = true) as ->.
  { unfold symbolResult in Hres. destruct (querySvg input); [|done].
    injection Hres as <-. apply fragment_truthy. }
  by rewrite IH.
Qed.

Lemma join_lines (lines : list string) (last : string) :
  Js.join nl (lines ++ [last])
  = String.concat EmptyString (map (fun line => line +:+ nl) lines) +:+ last.
Proof.
  induction lines as [|line lines IH]; [done |].
  destruct lines as [|line' lines].
  - simpl. rewrite append_assoc. reflexivity.
  - change ((line :: line' :: lines) ++ [last])
      with (line :: line' :: (lines ++ [last])).
    rewrite join_cons2.
    change (line' :: lines ++ [last]) with ((line' :: lines) ++ [last]).
    rewrite IH.
    change (map (fun l => l +:+ nl) (line :: line' :: lines))
      with ((line +:+ nl) :: map (fun l => l +:+ nl) (line' :: lines)).
    set (tail := map (fun l => l +:+ nl) (line' :: lines)).
    assert (String.concat EmptyString ((line +:+ nl) :: tail)
            = (line +:+ nl) +:+ String.concat EmptyString tail) as ->.
    { subst tail. simpl. reflexivity. }
    by rewrite !append_assoc.
Qed.

Lemma concat_app (a b : list string) :
  String.concat EmptyString (a ++ b)
  = String.concat EmptyString a +:+ String.concat EmptyString b.
Proof.
  induction a as [|x a IH]; [done |].
  destruct a as [|y a].
  - simpl. destruct b; [by rewrite append_empty_r | done].
  - change (String.concat EmptyString ((x :: y :: a) ++ b))
      with (x +:+ EmptyString +:+ String.concat EmptyString ((y :: a) ++ b)).
    rewrite IH.
    change (String.concat EmptyString (x :: y :: a))
      with (x +:+ EmptyString +:+ String.concat EmptyString (y :: a)).
    by rewrite !append_assoc.
Qed.

(** The composer: the five fixed lines around the surviving fragments, each
    line but the last followed by one line feed. *)
Lemma spriteOutput_lines (symbols : list (option string)) :
  spriteOutput symbols
  = xmlDeclaration +:+ String (ascii_of_nat 10) EmptyString
    +:+ svgOpenTag +:+ String (ascii_of_nat 10) EmptyString
    +:+ "<defs>" +:+ String (ascii_of_nat 10) EmptyString
    +:+ String.concat EmptyString
          (map (fun fragment => fragment +:+ String (ascii_of_nat 10) EmptyString)
             (filterBoolean symbols))
    +:+ "</defs>" +:+ String (ascii_of_nat 10) EmptyString +:+ "</svg>".
Proof.
  change (String (ascii_of_nat 10) EmptyString) with nl.
  unfold spriteOutput.
  set (frags := filterBoolean symbols).
  change ([xmlDeclaration; svgOpenTag; "<defs>"] ++ frags ++ ["</defs>"; "</svg>"])
    with (xmlDeclaration :: svgOpenTag :: "<defs>" :: (frags ++ ["</defs>"; "</svg>"])).
  replace (xmlDeclaration :: svgOpenTag :: "<defs>" :: (frags ++ ["</defs>"; "</svg>"]))
    with (([xmlDeclaration; svgOpenTag; "<defs>"] ++ frags ++ ["</defs>"]) ++ ["</svg>"])
    by (simpl; rewrite <- app_assoc; reflexivity).
  rewrite join_lines, !map_app, !concat_app.
  simpl map.
  change (String.concat EmptyString [xmlDeclaration +:+ nl; svgOpenTag +:+ nl; "<defs>" +:+ nl])
    with ((xmlDeclaration +:+ nl) +:+ EmptyString +:+ (svgOpenTag +:+ nl)
          +:+ EmptyString +:+ ("<defs>" +:+ nl)).
  change (String.concat EmptyString ["</defs>" +:+ nl]) with ("</defs>" +:+ nl).
  rewrite !append_assoc, !append_nil_l. reflexivity.
Qed.

Lemma filterBoolean_spec (symbols : list (option string)) :
  filterBoolean symbols
  = omap (fun symbol =>
            match symbol with
            | Some (String c r) => Some (String c r)
            | _ => None
            end) symbols.
Proof.
  induction symbols as [|[[|c r]|] symbols IH]; simpl; by rewrite ?IH.
Qed.

(** C8: the sprite text is the XML declaration, the zero-sized root open
    tag with the two namespace declarations, the [defs] open tag, every
    surviving fragment in order, the [defs] close tag and the root close
    tag, each but the last followed by one line feed (the character 10);
    the surviving fragments are the entries that are a non-empty text, in
    order; with the results of the per-file tasks as input, they are those
    of the files that have a root element, in discovery order. *)
Theorem spriteOutput_layout (querySvg : string -> option Element)
  (symbols : list (option string)) (icons : list (string * string)) :
  let lf := String (ascii_of_nat 10) EmptyString in
  spriteOutput symbols
  = xmlDeclaration +:+ lf +:+ svgOpenTag +:+ lf +:+ "<defs>" +:+ lf
    +:+ String.concat EmptyString
          (map (fun fragment => fragment +:+ lf) (filterBoolean symbols))
    +:+ "</defs>" +:+ lf +:+ "</svg>"
  /\ filterBoolean symbols
     = omap (fun symbol =>
               match symbol with
               | Some (String c r) => Some (String c r)
               | _ => None
               end) symbols
  /\ filterBoolean (map (fun icon => symbolResult querySvg (fst icon) (snd icon)) icons)
     = omap (fun icon => symbolResult querySvg (fst icon) (snd icon)) icons
  /\ xmlDeclaration
     = "<?xml version=" +:+ Js.dq +:+ "1.0" +:+ Js.dq +:+ " encoding="
       +:+ Js.dq +:+ "UTF-8" +:+ Js.dq +:+ "?>"
  /\ svgOpenTag
     = "<svg xmlns=" +:+ Js.dq +:+ "http://www.w3.org/2000/svg" +:+ Js.dq
       +:+ " xmlns:xlink=" +:+ Js.dq +:+ "http://www.w3.org/1999/xlink" +:+ Js.dq
       +:+ " width=" +:+ Js.dq +:+ "0" +:+ Js.dq
       +:+ " height=" +:+ Js.dq +:+ "0" +:+ Js.dq +:+ ">".
Proof.
  intros lf.
  split; [apply spriteOutput_lines |].
  split; [apply filterBoolean_spec |].
  split; [apply filterBoolean_symbolResults | done].
Qed.



(** ** The orchestrator *)

Lemma withDirs_logged (ds : list (list string)) (evs : list Event) (w : World) :
  withDirs ds (logged evs w) = logged evs (withDirs ds w).
Proof. reflexivity. Qed.

Lemma mkdir_recursive_spec (dir : string) (w : World) :
  let q := Path.resolve (proc_cwd w) (Path.normalize dir) in
  mkdir_recursive dir w =
    if String.eqb dir EmptyString || existsb (is_file w) (prefixes q)
    then (Thrown (MkdirFailed q), w)
    else (Done tt, logged [EvMkdir q] (withDirs (prefixes q) w)).
Proof. by destruct dir. Qed.

Lemma mkdirBlocked_false (props : PluginProps) (w : World) :
  mkdirBlocked props w = false <->
  mkdirText props w <> EmptyString
  /\ existsb (is_file w) (prefixes (madeDir props w)) = false.
Proof.
  unfold mkdirBlocked. rewrite orb_false_iff, String.eqb_neq. done.
Qed.

Lemma writeIfChanged_Done (p : Path.t) (content : string) (m : Message)
  (w w' : World) :
  let q := Path.resolve (proc_cwd w) p in
  writeIfChanged p content m w = (Done tt, w') ->
  (disk w !! q = Some content /\ w' = w)
  \/ (disk w !! q <> Some content /\ writable w q = true
      /\ w' = afterWrite q content m w).
Proof.
  intros q. rewrite writeIfChanged_closed. fold q.
  destruct (decide (disk w !! q = Some content)) as [Hsame|Hdiff].
  - intros [= <-]. by left.
  - destruct (writable w q) eqn:Hw; [|done].
    intros [= <-]. by right.
Qed.

Lemma writable_not_dir (w : World) (q : list string) :
  writable w q = true -> q ∉ dirs w.
Proof.
  unfold writable, is_dir. destruct q as [|s q]; [done |].
  intros [_ Hq%negb_true_iff]%andb_true_iff.
  by apply bool_decide_eq_false in Hq.
Qed.

(** What a completed write step leaves behind. *)
Lemma writeIfChanged_Done_facts (p : Path.t) (content : string) (m : Message)
  (w w' : World) :
  let q := Path.resolve (proc_cwd w) p in
  writeIfChanged p content m w = (Done tt, w') ->
  proc_cwd w' = proc_cwd w
  /\ dirs w' = dirs w
  /\ disk w' = <[q := content]> (disk w)
  /\ (is_Some (disk w !! q) \/ q ∉ dirs w)
  /\ exists evs, events w' = events w ++ evs
                 /\ (evs = [] \/ evs = [EvWrite q content; EvLog m]).
Proof.
  intros q Hrun.
  apply writeIfChanged_Done in Hrun as [[Hsame ->]|(Hdiff & Hw & ->)].
  - repeat split; [by rewrite insert_id | by left; eexists |].
    exists []. by rewrite app_nil_r; auto.
  - repeat split; [right; by apply writable_not_dir |].
    eexists. split; [reflexivity | by right].
Qed.

Lemma not_blocked (w : World) (q : list string) :
  existsb (is_file w) (prefixes q) = false <->
  forall p, p ∈ prefixes q -> disk w !! p = None.
Proof.
  split.
  - intros Hnone p Hp. destruct (disk w !! p) eqn:Hlook; [|done].
    assert (existsb (is_file w) (prefixes q) = true) as Habs; [|congruence].
    apply existsb_exists. exists p. split; [by apply list_elem_of_In |].
    unfold is_file. apply bool_decide_eq_true. by rewrite Hlook.
  - intros Hall. apply not_true_iff_false. intros (p & Hp & Hfile)%existsb_exists.
    unfold is_file in Hfile. apply bool_decide_eq_true in Hfile as [c Hc].
    rewrite Hall in Hc by (by apply list_elem_of_In). done.
Qed.

Lemma scheduleWarnings_elem (querySvg : string -> option Element) (w : World)
  (inDir : string) (found : list string) (sched : list nat) (e : Event) :
  e ∈ scheduleWarnings querySvg w inDir found sched ->
  exists file, e = EvLog (NoSvgTagFound file) /\ file ∈ found
               /\ lacksRoot querySvg w inDir file = true.
Proof.
  unfold scheduleWarnings. rewrite list_elem_of_In, in_flat_map.
  intros (i & _ & Hin).
  destruct (found !! i) as [file|] eqn:Hfile; [|done].
  unfold taskWarning in Hin.
  destruct (lacksRoot querySvg w inDir file) eqn:Hlacks; [|done].
  destruct Hin as [<-|[]]. exists file.
  split; [done |]. split; [by eapply list_elem_of_lookup_2 | done].
Qed.

Lemma isWarning_quiet (e : Event) :
  isWarning e = true -> isWrite e = false /\ isNotification e = false.
Proof. by destruct e as [[]| |]. Qed.

Lemma scheduleWarnings_no_write (querySvg : string -> option Element) (w : World)
  (inDir : string) (found : list string) (sched : list nat) :
  Forall (fun e => isWarning e = true) (scheduleWarnings querySvg w inDir found sched).
Proof.
  apply Forall_forall. intros e He.
  by apply scheduleWarnings_elem in He as (file & -> & _).
Qed.

Lemma withDirs_id (ds : list (list string)) (w : World) :
  list_to_set ds ⊆ dirs w -> withDirs ds w = w.
Proof.
  intros Hsub. destruct w as [c d f e]. unfold withDirs. simpl in *.
  f_equal. rewrite (comm_L (∪)). by apply subseteq_union_1_L.
Qed.

Lemma taskResults_ext (querySvg : string -> option Element) (w w' : World)
  (inDir : string) (found : list string) :
  (forall f, f ∈ found -> iconContent w' inDir f = iconContent w inDir f) ->
  taskResults querySvg w' inDir found = taskResults querySvg w inDir found.
Proof.
  intros Hsame. unfold taskResults. apply map_ext_in.
  intros f Hf. by rewrite Hsame by (by apply list_elem_of_In).
Qed.



(** Files that are readable and have a root element all contribute. *)
Lemma filterBoolean_rooted (querySvg : string -> option Element) (w : World)
  (inDir : string) (l : list string) :
  (forall f, f ∈ l -> is_Some (iconContent w inDir f)) ->
  (forall f, f ∈ l -> lacksRoot querySvg w inDir f = false) ->
  length (filterBoolean (taskResults querySvg w inDir l)) = length l.
Proof.
  induction l as [|f l IH]; intros Hread Hroot; [done |].
  simpl. destruct (Hread f) as [input Hinput]; [left |].
  pose proof (Hroot f ltac:(left)) as Hf.
  unfold lacksRoot in Hf. rewrite Hinput in *. unfold symbolResult.
  destruct (querySvg input) as [svg|]; [|done].
  rewrite fragment_truthy. simpl. f_equal.
  apply IH; intros; [apply Hread | apply Hroot]; by right.
Qed.




Lemma writeIfChanged_completes (p : Path.t) (content : string) (m : Message)
  (w : World) :
  writable w (Path.resolve (proc_cwd w) p) = true ->
  exists w' rest,
    writeIfChanged p content m w = (Done tt, w')
    /\ events w' = events w ++ rest
    /\ dirs w' = dirs w
    /\ proc_cwd w' = proc_cwd w.
Proof.
  intros Hw. rewrite writeIfChanged_closed, Hw.
  destruct (decide (disk w !! _ = Some content)).
  - exists w, []. by rewrite app_nil_r.
  - eexists _, _. split; [reflexivity |]. done.
Qed.

Lemma madeDir_cwd (props : PluginProps) (w w' : World) :
  proc_cwd w' = proc_cwd w -> madeDir props w' = madeDir props w.
Proof.
  intros H. unfold madeDir, mkdirText, cwdToUse. by rewrite H.
Qed.

Lemma mkdirText_cwd (props : PluginProps) (w w' : World) :
  proc_cwd w' = proc_cwd w -> mkdirText props w' = mkdirText props w.
Proof.
  intros H. unfold mkdirText, cwdToUse. by rewrite H.
Qed.

Lemma mkdirBlocked_after (props : PluginProps) (w w1 : World) :
  proc_cwd w1 = proc_cwd w ->
  mkdirBlocked props w = false ->
  existsb (is_file w1) (prefixes (madeDir props w)) = false ->
  mkdirBlocked props w1 = false.
Proof.
  intros Hcwd [Htext _]%mkdirBlocked_false Hfree. apply mkdirBlocked_false.
  by rewrite (mkdirText_cwd _ _ _ Hcwd), (madeDir_cwd _ _ _ Hcwd).
Qed.



Lemma writeIfChanged_stable (p : Path.t) (content : string) (m : Message)
  (v : World) :
  stable v (Path.resolve (proc_cwd v) p) content ->
  exists o, writeIfChanged p content m v = (o, v)
            /\ (o = Done tt <-> disk v !! Path.resolve (proc_cwd v) p = Some content).
Proof.
  intros Hstable. rewrite writeIfChanged_closed.
  destruct (decide (disk v !! _ = Some content)) as [Hsame|Hdiff].
  - by exists (Done tt).
  - destruct Hstable as [? | ->]; [done |].
    eexists. split; [reflexivity |]. split; [done | by intros ?].
Qed.

(** One step of the writer, whatever its outcome. *)
Lemma writeIfChanged_step (p : Path.t) (content : string) (m : Message)
  (v v' : World) (o : Outcome unit) :
  let q := Path.resolve (proc_cwd v) p in
  writeIfChanged p content m v = (o, v') ->
  proc_cwd v' = proc_cwd v
  /\ dirs v' = dirs v
  /\ ((o = Done tt /\ disk v' = <[q := content]> (disk v)
       /\ (is_Some (disk v !! q) \/ q ∉ dirs v))
      \/ (o = Thrown (WriteFailed q) /\ v' = v
          /\ disk v !! q <> Some content /\ writable v q = false)).
Proof.
  intros q. rewrite writeIfChanged_closed. fold q.
  destruct (decide (disk v !! q = Some content)) as [Hsame|Hdiff].
  - intros [= <- <-]. split; [done |]. split; [done |]. left.
    split; [done |]. split; [by rewrite insert_id | by left; eexists].
  - destruct (writable v q) eqn:Hw; intros [= <- <-].
    + split; [done |]. split; [done |]. left.
      split; [done |]. split; [done |]. right. by apply writable_not_dir.
    + split; [done |]. split; [done |]. by right.
Qed.

Lemma writable_dirs (v v' : World) (q : list string) :
  dirs v' = dirs v -> writable v' q = writable v q.
Proof. intros H. unfold writable, is_dir. by rewrite H. Qed.

Section Run.

Variable glob_svg : World -> list string -> list string.
Variable querySvg : string -> option Element.

(** The sprite step under a fair schedule, with every discovered file
    readable: the warnings, then the idempotent write of the sprite text. *)
Lemma generateSvgSprite_run (sched : list nat) (found : list string)
  (inDir : string) (outputPath rel : Path.t) (pre : list Event) (w : World) :
  fair (length found) sched ->
  (forall file, file ∈ found -> is_Some (iconContent w inDir file)) ->
  generateSvgSprite querySvg sched found inDir outputPath rel (logged pre w)
  = writeIfChanged outputPath (spriteOutput (taskResults querySvg w inDir found))
      (GeneratedSpritesheet rel)
      (logged (pre ++ scheduleWarnings querySvg w inDir found sched) w).
Proof.
  intros Hfair Hread. unfold generateSvgSprite, bind at 1.
  by rewrite promise_all_symbolTasks.
Qed.

Lemma generateSvgSprite_Done_readable (sched : list nat) (found : list string)
  (inDir : string) (outputPath rel : Path.t) (pre : list Event) (w w' : World) :
  fair (length found) sched ->
  generateSvgSprite querySvg sched found inDir outputPath rel (logged pre w)
  = (Done tt, w') ->
  forall file, file ∈ found -> is_Some (iconContent w inDir file).
Proof.
  intros Hfair Hrun. unfold generateSvgSprite, bind at 1 in Hrun.
  destruct (promise_all sched _ (logged pre w)) as [[symbols|e] w1] eqn:Hall;
    [|done].
  by eapply promise_all_Done_readable.
Qed.

(** The run, unfolded up to the sprite step. *)
Lemma generateIcons_unfold (props : PluginProps) (sched : list nat) (w : World) :
  generateIcons glob_svg querySvg props sched w =
    match discovered glob_svg props w with
    | [] => (Done tt, logged [EvLog (NoSvgFilesFound (inputDirRelative props w))] w)
    | file :: more =>
        if mkdirBlocked props w
        then (Thrown (MkdirFailed (madeDir props w)), w)
        else
          (generateSvgSprite querySvg sched (file :: more) (inputDir props)
             (spritePath props) (outputDirRelative props w) ;;;
           if wantsTypes props
           then generateTypes (map iconName (file :: more)) (typesPath props)
           else ret tt)
            (logged [EvMkdir (madeDir props w)]
               (withDirs (prefixes (madeDir props w)) w))
    end.
Proof.
  unfold generateIcons, bind at 1, process_cwd.
  unfold bind at 1, glob_sync.
  fold (discovered glob_svg props w).
  destruct (discovered glob_svg props w) as [|file more]; [done |].
  unfold bind at 1. rewrite mkdir_recursive_spec.
  fold (cwdToUse props w). fold (outputDirRelative props w).
  fold (mkdirText props w). fold (madeDir props w). fold (mkdirBlocked props w).
  destruct (mkdirBlocked props w); done.
Qed.

(** What a completed run over a non-empty discovery has done. *)
Lemma generateIcons_Done_shape (props : PluginProps) (sched : list nat)
  (w w1 : World) (file : string) (more : list string) :
  discovered glob_svg props w = file :: more ->
  fair (length (file :: more)) sched ->
  generateIcons glob_svg querySvg props sched w = (Done tt, w1) ->
  let found := file :: more in
  let sp := Path.resolve (proc_cwd w) (spritePath props) in
  let tp := Path.resolve (proc_cwd w) (typesPath props) in
  let st := spriteText querySvg props w found in
  proc_cwd w1 = proc_cwd w
  /\ dirs w1 = dirs w ∪ list_to_set (prefixes (madeDir props w))
  /\ disk w1 = (if wantsTypes props
                then <[tp := typesText found]> (<[sp := st]> (disk w))
                else <[sp := st]> (disk w))
  /\ existsb (is_file w1) (prefixes (madeDir props w)) = false
  /\ (forall f, f ∈ found -> is_Some (iconContent w (inputDir props) f))
  /\ exists evs, events w1 = events w ++ evs
       /\ forall q c, EvWrite q c ∈ evs ->
            (q = sp /\ c = st)
            \/ (wantsTypes props = true /\ q = tp /\ c = typesText found).
Proof.
  intros Hfound Hfair Hrun found sp tp st.
  rewrite generateIcons_unfold, Hfound in Hrun. fold found in Hrun.
  destruct (mkdirBlocked props w) eqn:Hblocked; [done |].
  apply mkdirBlocked_false in Hblocked as [_ Hmk].
  rewrite not_blocked in Hmk.
  unfold bind at 1 in Hrun.
  set (W := withDirs (prefixes (madeDir props w)) w) in *.
  destruct (generateSvgSprite querySvg sched found (inputDir props)
              (spritePath props) (outputDirRelative props w)
              (logged [EvMkdir (madeDir props w)] W)) as [[[]|e] wb] eqn:Hsprite;
    [|done].
  pose proof (generateSvgSprite_Done_readable _ _ _ _ _ _ _ _ Hfair Hsprite)
    as Hread.
  rewrite generateSvgSprite_run in Hsprite by done.
  apply writeIfChanged_Done_facts in Hsprite
    as (Hcwd_b & Hdirs_b & Hdisk_b & Hq_b & evs_b & Hev_b & Hevs_b).
  simpl in Hcwd_b, Hdirs_b, Hdisk_b, Hq_b, Hev_b.
  fold sp in Hdisk_b, Hq_b, Hevs_b.
  change (spriteOutput (taskResults querySvg W (inputDir props) found))
    with st in *.
  assert (forall p, p ∈ prefixes (madeDir props w) -> p <> sp) as Hsp.
  { intros p Hp ->. destruct Hq_b as [[c Hc]|Hnd].
    - by rewrite Hmk in Hc.
    - apply Hnd. apply elem_of_union_r. by apply elem_of_list_to_set. }
  destruct (wantsTypes props) eqn:Hwt.
  - unfold generateTypes in Hrun.
    apply writeIfChanged_Done_facts in Hrun
      as (Hcwd & Hdirs & Hdisk & Hq & evs_t & Hev & Hevs).
    rewrite Hcwd_b in Hdisk, Hq, Hevs. fold tp in Hdisk, Hq, Hevs.
    change (typesOutput (map iconName found)) with (typesText found) in *.
    assert (forall p, p ∈ prefixes (madeDir props w) -> p <> tp) as Htp.
    { intros p Hp ->. destruct Hq as [[c Hc]|Hnd].
      - rewrite Hdisk_b, lookup_insert_ne in Hc by (symmetry; by apply Hsp).
        by rewrite Hmk in Hc.
      - apply Hnd. rewrite Hdirs_b.
        apply elem_of_union_r. by apply elem_of_list_to_set. }
    split; [congruence |]. split; [congruence |].
    split; [by rewrite Hdisk, Hdisk_b |].
    split.
    { apply not_blocked. intros p Hp.
      rewrite Hdisk, Hdisk_b, !lookup_insert_ne
        by (symmetry; auto). by apply Hmk. }
    split; [exact Hread |].
    exists ([EvMkdir (madeDir props w)]
            ++ scheduleWarnings querySvg W (inputDir props) found sched
            ++ evs_b ++ evs_t).
    split.
    { rewrite Hev, Hev_b. by rewrite <- !app_assoc. }
    intros q c Hin. change ([EvMkdir (madeDir props w)] ++ ?l) with (EvMkdir (madeDir props w) :: l) in Hin.
    apply elem_of_cons in Hin as [?|Hin]; [done |].
    apply elem_of_app in Hin as [Hin|Hin].
    { by apply scheduleWarnings_elem in Hin as (? & ? & _). }
    apply elem_of_app in Hin as [Hin|Hin].
    + left. destruct Hevs_b as [->| ->]; [by apply elem_of_nil in Hin |].
      apply elem_of_cons in Hin as [[= -> ->]|Hin]; [done |].
      apply list_elem_of_singleton in Hin. done.
    + right. destruct Hevs as [->| ->]; [by apply elem_of_nil in Hin |].
      apply elem_of_cons in Hin as [[= -> ->]|Hin]; [done |].
      apply list_elem_of_singleton in Hin. done.
  - unfold ret in Hrun. injection Hrun as <-.
    split; [done |]. split; [done |]. split; [done |].
    split.
    { apply not_blocked. intros p Hp.
      rewrite Hdisk_b, lookup_insert_ne by (symmetry; auto). by apply Hmk. }
    split; [exact Hread |].
    exists ([EvMkdir (madeDir props w)]
            ++ scheduleWarnings querySvg W (inputDir props) found sched
            ++ evs_b).
    split.
    { rewrite Hev_b. by rewrite <- !app_assoc. }
    intros q c Hin. change ([EvMkdir (madeDir props w)] ++ ?l) with (EvMkdir (madeDir props w) :: l) in Hin.
    apply elem_of_cons in Hin as [?|Hin]; [done |].
    apply elem_of_app in Hin as [Hin|Hin].
    { by apply scheduleWarnings_elem in Hin as (? & ? & _). }
    left. destruct Hevs_b as [->| ->]; [by apply elem_of_nil in Hin |].
    apply elem_of_cons in Hin as [[= -> ->]|Hin]; [done |].
    apply list_elem_of_singleton in Hin. done.
Qed.

(** A run over a world whose outputs are current: nothing is written. *)
Lemma generateIcons_steady (props : PluginProps) (sched : list nat)
  (w : World) (file : string) (more : list string) :
  discovered glob_svg props w = file :: more ->
  fair (length (file :: more)) sched ->
  mkdirBlocked props w = false ->
  list_to_set (prefixes (madeDir props w)) ⊆ dirs w ->
  (forall f, f ∈ file :: more -> is_Some (iconContent w (inputDir props) f)) ->
  disk w !! Path.resolve (proc_cwd w) (spritePath props)
    = Some (spriteText querySvg props w (file :: more)) ->
  (wantsTypes props = true ->
   disk w !! Path.resolve (proc_cwd w) (typesPath props)
     = Some (typesText (file :: more))) ->
  generateIcons glob_svg querySvg props sched w
  = (Done tt,
     logged (EvMkdir (madeDir props w)
             :: scheduleWarnings querySvg w (inputDir props) (file :: more) sched) w).
Proof.
  intros Hfound Hfair Hmk Hdirs Hread Hsprite Htypes.
  rewrite generateIcons_unfold, Hfound, Hmk.
  rewrite withDirs_id by done.
  unfold bind at 1.
  rewrite generateSvgSprite_run by done.
  rewrite writeIfChanged_closed. simpl proc_cwd. simpl disk.
  rewrite decide_True by exact Hsprite.
  destruct (wantsTypes props) eqn:Hwt; [|done].
  unfold generateTypes. rewrite writeIfChanged_closed. simpl proc_cwd. simpl disk.
  by rewrite decide_True by (by apply Htypes).
Qed.

(** With a file system that lets the run through, the run completes. *)
Lemma generateIcons_completes (props : PluginProps) (sched : list nat)
  (w : World) (file : string) (more : list string) :
  discovered glob_svg props w = file :: more ->
  fair (length (file :: more)) sched ->
  (forall f, f ∈ file :: more -> is_Some (iconContent w (inputDir props) f)) ->
  outputsWritable props w ->
  exists w' rest,
    generateIcons glob_svg querySvg props sched w = (Done tt, w')
    /\ events w'
       = (events w
          ++ EvMkdir (madeDir props w)
             :: scheduleWarnings querySvg w (inputDir props) (file :: more) sched)
         ++ rest.
Proof.
  intros Hfound Hfair Hread (Hmk & Hsp & Htp).
  rewrite generateIcons_unfold, Hfound, Hmk.
  unfold bind at 1.
  rewrite generateSvgSprite_run by done.
  set (W := withDirs (prefixes (madeDir props w)) w) in *.
  set (W1 := logged _ W).
  destruct (writeIfChanged_completes (spritePath props)
              (spriteOutput (taskResults querySvg W (inputDir props) (file :: more)))
              (GeneratedSpritesheet (outputDirRelative props w)) W1 Hsp)
    as (wb & rest_b & -> & Hev_b & Hdirs_b & Hcwd_b).
  destruct (wantsTypes props) eqn:Hwt.
  - unfold generateTypes.
    destruct (writeIfChanged_completes (typesPath props)
                (typesOutput (map iconName (file :: more)))
                (GeneratedIconTypes (typesPath props)) wb)
      as (w' & rest & -> & Hev & _).
    { rewrite Hcwd_b. rewrite <- (Htp eq_refl).
      unfold writable, is_dir. by rewrite Hdirs_b. }
    exists w', (rest_b ++ rest). split; [done |].
    rewrite Hev, Hev_b. subst W1. simpl. by rewrite <- !app_assoc.
  - exists wb, rest_b. split; [done |].
    rewrite Hev_b. subst W1. simpl. by rewrite <- !app_assoc.
Qed.

(** C7: when discovery returns no file, the run warns and ends well; no
    directory is created and no file is written or altered. *)
Theorem no_icons_no_effect (props : PluginProps) (sched : list nat) (w : World) :
  discovered glob_svg props w = [] ->
  exists w',
    generateIcons glob_svg querySvg props sched w = (Done tt, w')
    /\ dirs w' = dirs w
    /\ disk w' = disk w
    /\ events w' = events w ++ [EvLog (NoSvgFilesFound (inputDirRelative props w))].
Proof.
  intros Hfound. rewrite generateIcons_unfold, Hfound.
  eexists. split; [reflexivity |]. done.
Qed.

(** C10: with the manifest flag set, a completed run leaves the manifest
    at [outputDir/types.ts], whatever the file-name option says; that
    option (default [sprite.svg]) names the sprite, which is left at
    [outputDir/fileName]; the run writes nowhere else. *)
Theorem outputs_at_fixed_paths (props : PluginProps) (sched : list nat)
  (w w' : World) :
  let found := discovered glob_svg props w in
  let tp := Path.resolve (proc_cwd w) (Path.join (outputDir props) "types.ts") in
  let sp := Path.resolve (proc_cwd w)
              (Path.join (outputDir props) (default "sprite.svg" (fileName props))) in
  wantsTypes props = true ->
  found <> [] ->
  fair (length found) sched ->
  generateIcons glob_svg querySvg props sched w = (Done tt, w') ->
  disk w' !! tp = Some (typesText found)
  /\ (sp <> tp -> disk w' !! sp = Some (spriteText querySvg props w found))
  /\ exists evs, events w' = events w ++ evs
       /\ forall q c, EvWrite q c ∈ evs ->
            (q = sp /\ c = spriteText querySvg props w found)
            \/ (q = tp /\ c = typesText found).
Proof.
  intros found tp sp Hwt Hne Hfair Hrun.
  destruct found as [|file more] eqn:Hfound; [done |].
  destruct (generateIcons_Done_shape props sched w w' file more Hfound Hfair Hrun)
    as (_ & _ & Hdisk & _ & _ & evs & Hev & Hwrites).
  rewrite Hwt in Hdisk.
  fold (spritePath props) in sp. fold (typesPath props) in tp.
  fold sp tp in Hdisk, Hwrites.
  split; [by rewrite Hdisk, lookup_insert_eq |].
  split.
  - intros Hdiff. by rewrite Hdisk, lookup_insert_ne, lookup_insert_eq.
  - exists evs. split; [done |].
    intros q c Hin. destruct (Hwrites q c Hin) as [?|(_ & ? & ?)]; auto.
Qed.

(** A run over a world in which no step of the writer can change
    anything: nothing is written, whatever the outcome. *)
Lemma generateIcons_quiet (props : PluginProps) (sched : list nat) (v : World)
  (file : string) (more : list string) :
  let found := file :: more in
  let sp := Path.resolve (proc_cwd v) (spritePath props) in
  let tp := Path.resolve (proc_cwd v) (typesPath props) in
  let st := spriteText querySvg props v found in
  discovered glob_svg props v = found ->
  fair (length found) sched ->
  mkdirBlocked props v = false ->
  list_to_set (prefixes (madeDir props v)) ⊆ dirs v ->
  ((forall f, f ∈ found -> is_Some (iconContent v (inputDir props) f)) ->
   stable v sp st
   /\ (disk v !! sp = Some st -> wantsTypes props = true ->
       stable v tp (typesText found))) ->
  exists o evs,
    generateIcons glob_svg querySvg props sched v = (o, logged evs v)
    /\ Forall (fun e => isWrite e = false /\ isNotification e = false) evs
    /\ ((forall f, f ∈ found -> is_Some (iconContent v (inputDir props) f)) ->
        disk v !! sp = Some st ->
        (wantsTypes props = true -> disk v !! tp = Some (typesText found)) ->
        o = Done tt).
Proof.
  intros found sp tp st Hfound Hfair Hmk Hdirs Hstable.
  rewrite generateIcons_unfold, Hfound. unfold found at 1. rewrite Hmk.
  rewrite withDirs_id by done. fold found.
  unfold bind at 1.
  destruct (decide (Forall (fun f => is_Some (iconContent v (inputDir props) f)) found))
    as [Hread|Hunread].
  - rewrite Forall_forall in Hread. destruct (Hstable Hread) as [Hsp Htp].
    rewrite generateSvgSprite_run by done.
    set (V := logged _ v).
    destruct (writeIfChanged_stable (spritePath props) st
                (GeneratedSpritesheet (outputDirRelative props v)) V Hsp)
      as (o & Hrun & Ho).
    change (spriteOutput (taskResults querySvg v (inputDir props) found)) with st.
    rewrite Hrun.
    assert (Forall (fun e => isWrite e = false /\ isNotification e = false)
              ([EvMkdir (madeDir props v)]
               ++ scheduleWarnings querySvg v (inputDir props) found sched))
      as Hquiet.
    { apply Forall_app. split; [by repeat constructor |].
      eapply Forall_impl; [apply scheduleWarnings_no_write |].
      apply isWarning_quiet. }
    destruct o as [[]|e].
    + apply proj1 in Ho. specialize (Ho eq_refl).
      destruct (wantsTypes props) eqn:Hwt.
      * unfold generateTypes.
        destruct (writeIfChanged_stable (typesPath props) (typesText found)
                    (GeneratedIconTypes (typesPath props)) V (Htp Ho eq_refl))
          as (o' & Hrun' & Ho').
        change (typesOutput (map iconName found)) with (typesText found).
        rewrite Hrun'.
        exists o', ([EvMkdir (madeDir props v)]
                    ++ scheduleWarnings querySvg v (inputDir props) found sched).
        split; [done |]. split; [done |].
        intros _ _ Ht. apply Ho'. by apply Ht.
      * eexists (Done tt), _. split; [reflexivity |]. by split.
    + eexists (Thrown e), _. split; [reflexivity |]. split; [done |].
      intros _ Hs _. by apply Ho in Hs.
  - unfold generateSvgSprite, bind at 1.
    destruct (promise_all_unreadable querySvg (inputDir props) found v sched
                [EvMkdir (madeDir props v)] Hfair)
      as (e & evs & -> & Hquiet).
    { intros Hall. apply Hunread. by apply Forall_forall. }
    eexists (Thrown e), _. split; [reflexivity |]. split.
    + apply Forall_app. split; [by repeat constructor |].
      eapply Forall_impl; [exact Hquiet | apply isWarning_quiet].
    + intros Hall. exfalso. apply Hunread. by apply Forall_forall.
Qed.

(** What a run leaves behind, whatever its outcome, once the output
    directory could be created. *)
Lemma generateIcons_after (props : PluginProps) (sched : list nat)
  (w w1 : World) (o1 : Outcome unit) (file : string) (more : list string) :
  let found := file :: more in
  let sp := Path.resolve (proc_cwd w) (spritePath props) in
  let tp := Path.resolve (proc_cwd w) (typesPath props) in
  let st := spriteText querySvg props w found in
  discovered glob_svg props w = found ->
  fair (length found) sched ->
  mkdirBlocked props w = false ->
  (wantsTypes props = true -> sp <> tp) ->
  generateIcons glob_svg querySvg props sched w = (o1, w1) ->
  proc_cwd w1 = proc_cwd w
  /\ dirs w1 = dirs w ∪ list_to_set (prefixes (madeDir props w))
  /\ existsb (is_file w1) (prefixes (madeDir props w)) = false
  /\ ((forall f, f ∈ found -> is_Some (iconContent w (inputDir props) f)) ->
      stable w1 sp st
      /\ (disk w1 !! sp = Some st -> wantsTypes props = true ->
          stable w1 tp (typesText found)))
  /\ (o1 = Done tt ->
      (forall f, f ∈ found -> is_Some (iconContent w (inputDir props) f))
      /\ disk w1 !! sp = Some st
      /\ (wantsTypes props = true -> disk w1 !! tp = Some (typesText found))).
Proof.
  intros found sp tp st Hfound Hfair Hblocked Hdistinct.
  rewrite generateIcons_unfold, Hfound. unfold found at 1. rewrite Hblocked.
  apply mkdirBlocked_false in Hblocked as [_ Hmk].
  fold found. rewrite not_blocked in Hmk.
  set (W := withDirs (prefixes (madeDir props w)) w).
  unfold bind at 1.
  destruct (decide (Forall (fun f => is_Some (iconContent w (inputDir props) f)) found))
    as [Hread|Hunread].
  - rewrite Forall_forall in Hread.
    rewrite generateSvgSprite_run by done.
    set (W1 := logged _ W).
    destruct (writeIfChanged _ _ _ W1) as [ob wb] eqn:Hsprite.
    apply writeIfChanged_step in Hsprite as (Hcwd_b & Hdirs_b & Hstep_b).
    simpl in Hcwd_b, Hdirs_b, Hstep_b.
    fold sp in Hstep_b.
    change (spriteOutput (taskResults querySvg W (inputDir props) found))
      with st in Hstep_b.
    destruct Hstep_b as [(-> & Hdisk_b & Hfree_b)|(-> & -> & Hdiff_b & Hw_b)].
    + assert (forall p, p ∈ prefixes (madeDir props w) -> p <> sp) as Hsp.
      { intros p Hp ->. destruct Hfree_b as [[c Hc]|Hnd].
        - by rewrite Hmk in Hc.
        - apply Hnd. apply elem_of_union_r. by apply elem_of_list_to_set. }
      destruct (wantsTypes props) eqn:Hwt.
      * unfold generateTypes. intros Htypes.
        apply writeIfChanged_step in Htypes as (Hcwd & Hdirs & Hstep).
        rewrite Hcwd_b in Hstep. fold tp in Hstep.
        change (typesOutput (map iconName found)) with (typesText found) in Hstep.
        destruct Hstep as [(-> & Hdisk & Hfree)|(-> & -> & Hdiff & Hw)].
        -- assert (forall p, p ∈ prefixes (madeDir props w) -> p <> tp) as Htp.
           { intros p Hp ->. destruct Hfree as [[c Hc]|Hnd].
             - rewrite Hdisk_b, lookup_insert_ne in Hc by (symmetry; by apply Hsp).
               by rewrite Hmk in Hc.
             - apply Hnd. rewrite Hdirs_b.
               apply elem_of_union_r. by apply elem_of_list_to_set. }
           assert (disk w1 !! sp = Some st) as Hs.
           { by rewrite Hdisk, Hdisk_b, lookup_insert_ne, lookup_insert_eq
               by (symmetry; by apply Hdistinct). }
           assert (disk w1 !! tp = Some (typesText found)) as Ht.
           { by rewrite Hdisk, lookup_insert_eq. }
           split; [congruence |]. split; [congruence |].
           split.
           { apply not_blocked. intros p Hp.
             rewrite Hdisk, Hdisk_b, !lookup_insert_ne by (symmetry; auto).
             by apply Hmk. }
           split; [intros _; split; [by left | intros _ _; by left] |].
           intros _. split; [done |]. split; [done | by intros _].
        -- assert (disk wb !! sp = Some st) as Hs.
           { by rewrite Hdisk_b, lookup_insert_eq. }
           split; [done |]. split; [done |].
           split.
           { apply not_blocked. intros p Hp.
             rewrite Hdisk_b, lookup_insert_ne by (symmetry; auto).
             by apply Hmk. }
           split; [intros _; split; [by left | intros _ _; by right] |].
           intros [=].
      * intros [= <- <-].
        assert (disk wb !! sp = Some st) as Hs.
        { by rewrite Hdisk_b, lookup_insert_eq. }
        split; [done |]. split; [done |].
        split.
        { apply not_blocked. intros p Hp.
          rewrite Hdisk_b, lookup_insert_ne by (symmetry; auto).
          by apply Hmk. }
        split; [intros _; split; [by left | by intros _ ?] |].
        intros _. split; [done |]. split; [done | by intros ?].
    + intros [= <- <-].
      split; [done |]. split; [done |].
      split; [by apply not_blocked |].
      split; [intros _; split; [by right | by intros ?] |].
      intros [=].
  - unfold generateSvgSprite, bind at 1.
    destruct (promise_all_unreadable querySvg (inputDir props) found W sched
                [EvMkdir (madeDir props w)] Hfair)
      as (e & evs & -> & Hquiet).
    { intros Hall. apply Hunread. by apply Forall_forall. }
    intros [= <- <-].
    split; [done |]. split; [done |].
    split; [by apply not_blocked |].
    split.
    + intros Hall. exfalso. apply Hunread. by apply Forall_forall.
    + intros [=].
Qed.

(** C5, as the code has it: when the discovered list and the content of
    the discovered files are as the first run saw them, and the sprite and
    the manifest are not the same file, a second run, whatever the order in
    which its tasks settle, writes nothing: it leaves directories and
    files as they are, and none of its events is a write or a notification
    of the writer (what it records is the directory request and the
    warnings of the skipped files).  When the first run completed, the
    second completes too, and the sprite and the manifest it computes are
    the texts already on disk. *)
Theorem second_run_writes_nothing (props : PluginProps) (s1 s2 : list nat)
  (w w1 : World) (o1 : Outcome unit) :
  let found := discovered glob_svg props w in
  let sp := Path.resolve (proc_cwd w) (spritePath props) in
  let tp := Path.resolve (proc_cwd w) (typesPath props) in
  fair (length found) s1 ->
  fair (length found) s2 ->
  generateIcons glob_svg querySvg props s1 w = (o1, w1) ->
  discovered glob_svg props w1 = found ->
  (forall f, f ∈ found ->
     iconContent w1 (inputDir props) f = iconContent w (inputDir props) f) ->
  (wantsTypes props = true -> sp <> tp) ->
  exists o2 evs,
    generateIcons glob_svg querySvg props s2 w1 = (o2, logged evs w1)
    /\ Forall (fun e => isWrite e = false /\ isNotification e = false) evs
    /\ (o1 = Done tt ->
        o2 = Done tt
        /\ (found <> [] ->
            disk w1 !! sp = Some (spriteText querySvg props w1 found)
            /\ (wantsTypes props = true -> disk w1 !! tp = Some (typesText found)))).
Proof.
  intros found sp tp. subst found.
  destruct (discovered glob_svg props w) as [|file more] eqn:Hfound;
    intros Hfair1 Hfair2 Hrun1 Hfound1 Hsame Hdistinct.
  { eexists (Done tt), _. split; [|split; [|done]].
    - rewrite generateIcons_unfold, Hfound1. reflexivity.
    - by repeat constructor. }
  destruct (mkdirBlocked props w) eqn:Hmk.
  { pose proof Hrun1 as Hrun. rewrite generateIcons_unfold, Hfound, Hmk in Hrun.
    injection Hrun as <- <-.
    eexists _, []. rewrite logged_nil. split; [|split; [done | done]].
    rewrite generateIcons_unfold, Hfound1, Hmk. reflexivity. }
  destruct (generateIcons_after props s1 w w1 o1 file more Hfound Hfair1 Hmk
              Hdistinct Hrun1) as (Hcwd & Hdirs & Hmk1 & Hstable & Hdone).
  fold sp tp in Hstable, Hdone.
  assert (spriteText querySvg props w1 (file :: more)
          = spriteText querySvg props w (file :: more)) as Htext.
  { unfold spriteText. f_equal. by apply taskResults_ext. }
  assert ((forall f, f ∈ file :: more -> is_Some (iconContent w1 (inputDir props) f))
          -> forall f, f ∈ file :: more -> is_Some (iconContent w (inputDir props) f))
    as Hread.
  { intros Hall f Hf. rewrite <- Hsame by done. by apply Hall. }
  destruct (generateIcons_quiet props s2 w1 file more) as (o2 & evs & Hrun2 & Hquiet & Hdone2).
  - done.
  - done.
  - by apply (mkdirBlocked_after props w w1).
  - rewrite (madeDir_cwd _ _ _ Hcwd), Hdirs. apply union_subseteq_r.
  - rewrite Hcwd, Htext. intros Hall. by apply Hstable, Hread.
  - rewrite Hcwd, Htext in Hdone2.
    exists o2, evs. split; [done |]. split; [done |].
    intros Ho1. destruct (Hdone Ho1) as (Hall & Hs & Ht).
    split.
    + apply Hdone2; [|done..]. intros f Hf. rewrite Hsame by done. by apply Hall.
    + intros _. by rewrite Htext.
Qed.



End Run.

(** ** The sprite and the manifest of one run *)

Lemma taskResults_cons (querySvg : string -> option Element) (w : World)
  (inDir file : string) (found : list string) :
  taskResults querySvg w inDir (file :: found)
  = match iconContent w inDir file with
    | Some input => symbolResult querySvg file input
    | None => None
    end :: taskResults querySvg w inDir found.
Proof. reflexivity. Qed.

Lemma spriteSymbols_cons (querySvg : string -> option Element) (w : World)
  (inDir file : string) (found : list string) :
  spriteSymbols querySvg w inDir (file :: found)
  = match iconContent w inDir file with
    | Some input =>
        match querySvg input with
        | Some svg =>
            symbolElement (iconName file) svg :: spriteSymbols querySvg w inDir found
        | None => spriteSymbols querySvg w inDir found
        end
    | None => spriteSymbols querySvg w inDir found
    end.
Proof.
  unfold spriteSymbols. simpl.
  destruct (iconContent w inDir file) as [input|]; [|done].
  by destruct (querySvg input).
Qed.

(** The fragments of the sprite are the serialised symbol elements. *)
Lemma filterBoolean_taskResults (querySvg : string -> option Element)
  (w : World) (inDir : string) (found : list string) :
  filterBoolean (taskResults querySvg w inDir found)
  = map (fun el => Js.trim (toString el)) (spriteSymbols querySvg w inDir found).
Proof.
  induction found as [|file found IH]; [done |].
  rewrite taskResults_cons, spriteSymbols_cons.
  destruct (iconContent w inDir file) as [input|]; [|done].
  unfold symbolResult. destruct (querySvg input) as [svg|]; [|done].
  simpl. by rewrite fragment_truthy, IH.
Qed.

(** The identifiers in the sprite are those of the files that have a root
    element; the manifest is rendered from those of all discovered files. *)
Lemma symbolIds_rooted (querySvg : string -> option Element)
  (w : World) (inDir : string) (found : list string) :
  (forall f, f ∈ found -> is_Some (iconContent w inDir f)) ->
  symbolIds querySvg w inDir found
  = map iconName (List.filter (fun f => negb (lacksRoot querySvg w inDir f)) found).
Proof.
  induction found as [|file found IH]; intros Hread; [done |].
  unfold symbolIds in *. rewrite spriteSymbols_cons. simpl.
  destruct (Hread file) as [input Hinput]; [left |].
  unfold lacksRoot at 1. rewrite Hinput.
  destruct (querySvg input) as [svg|]; simpl.
  - rewrite symbolElement_id. f_equal. apply IH. intros; apply Hread; by right.
  - apply IH. intros; apply Hread; by right.
Qed.

(** C1 at a run with a skipped file: discovery returns three files, one
    without a root element; the manifest on disk lists three identifiers,
    the sprite on disk holds two symbols, and [Broken] is in the manifest
    only. *)
Theorem manifest_lists_skipped_file :
  let w := Sample.with_broken in
  let found := discovered Reference.glob_svg Sample.props w in
  found = ["arrow-right.svg"; "broken.svg"; "close.svg"]
  /\ lacksRoot Reference.querySvg w "icons" "broken.svg" = true
  /\ exists w',
       Sample.run Sample.props [0; 1; 2] w = (Done tt, w')
       /\ disk w' !! ["app"; "public"; "types.ts"]
          = Some (typesOutput ["ArrowRight"; "Broken"; "Close"])
       /\ disk w' !! ["app"; "public"; "sprite.svg"]
          = Some (spriteOutput
                    (map (fun el => Some (Js.trim (toString el)))
                       (spriteSymbols Reference.querySvg w "icons" found)))
       /\ symbolIds Reference.querySvg w "icons" found = ["ArrowRight"; "Close"]
       /\ "Broken" ∈ map iconName found
       /\ "Broken" ∉ symbolIds Reference.querySvg w "icons" found.
Proof.
  split; [by vm_compute |]. split; [by vm_compute |].
  eexists. split; [vm_compute; reflexivity |].
  split; [by vm_compute |]. split; [by vm_compute |].
  split; [by vm_compute |].
  split.
  - vm_compute. apply list_elem_of_In. simpl. auto.
  - vm_compute. intros Hin. apply list_elem_of_In in Hin. simpl in Hin.
    destruct Hin as [?|[?|[]]]; discriminate.
Qed.

(** C2 at two invocations that differ in the working-directory override
    only: the run without the override creates [/app/public] and
    completes; the run with it creates [/public] and then fails to write the
    sprite.  Through the hook the override decides whether the generator
    runs at all: without it the stale sprite is found and kept, with it the
    sprite is looked for elsewhere and overwritten. *)
Theorem cwd_override_changes_effects :
  Sample.props_cwd
  = mkProps (withTypes Sample.props) (inputDir Sample.props)
      (outputDir Sample.props) (fileName Sample.props) (Some "/app/packages/site")
  /\ cwd Sample.props = None
  /\ madeDir Sample.props Sample.two_icons = ["app"; "public"]
  /\ madeDir Sample.props_cwd Sample.two_icons = ["public"]
  /\ fst (Sample.run Sample.props [0; 1] Sample.two_icons) = Done tt
  /\ Sample.run Sample.props_cwd [0; 1] Sample.two_icons
     = (Thrown (WriteFailed ["app"; "public"; "sprite.svg"]),
        logged [EvMkdir ["public"]] (withDirs [["public"]] Sample.two_icons))
  /\ configResolved Reference.glob_svg Reference.querySvg Sample.props [0; 1]
       Sample.stale
     = (Done tt, Sample.stale)
  /\ exists w',
       configResolved Reference.glob_svg Reference.querySvg
         (mkProps (Some true) "icons" "public" None (Some "/srv/site")) [0; 1]
         Sample.stale
       = (Done tt, w')
       /\ disk w' !! ["app"; "public"; "sprite.svg"]
          = Some (spriteText Reference.querySvg Sample.props Sample.stale
                    ["arrow-right.svg"; "close.svg"])
       /\ disk Sample.stale !! ["app"; "public"; "sprite.svg"] = Some "stale".
Proof.
  repeat (split; [by vm_compute |]).
  eexists. split; [vm_compute; reflexivity |].
  split; by vm_compute.
Qed.

(** ** Worked instances *)

Lemma no_icons_no_effect_witness :
  discovered Reference.glob_svg Sample.props Sample.no_icons = []
  /\ exists w',
       Sample.run Sample.props [] Sample.no_icons = (Done tt, w')
       /\ dirs w' = dirs Sample.no_icons
       /\ disk w' = disk Sample.no_icons
       /\ events w'
          = events Sample.no_icons
            ++ [EvLog (NoSvgFilesFound (inputDirRelative Sample.props Sample.no_icons))].
Proof.
  split; [vm_compute; reflexivity |].
  apply (no_icons_no_effect Reference.glob_svg Reference.querySvg
           Sample.props [] Sample.no_icons).
  vm_compute; reflexivity.
Defined.



Lemma outputs_at_fixed_paths_witness :
  disk (snd (Sample.run Sample.props [1; 0] Sample.two_icons))
    !! ["app"; "public"; "types.ts"]
  = Some (typesText ["arrow-right.svg"; "close.svg"]).
Proof.
  exact (proj1 (outputs_at_fixed_paths Reference.glob_svg Reference.querySvg
                  Sample.props [1; 0] Sample.two_icons
                  (snd (Sample.run Sample.props [1; 0] Sample.two_icons))
                  ltac:(vm_compute; reflexivity)
                  ltac:(vm_compute; discriminate)
                  ltac:(vm_compute; apply perm_swap)
                  ltac:(vm_compute; reflexivity))).
Defined.

Lemma second_run_writes_nothing_witness :
  exists evs,
    Sample.run Sample.props [0; 1; 2] Sample.after_first_run
    = (Done tt, logged evs Sample.after_first_run)
    /\ Forall (fun e => isWrite e = false /\ isNotification e = false) evs.
Proof.
  destruct (second_run_writes_nothing Reference.glob_svg Reference.querySvg
              Sample.props [2; 0; 1] [0; 1; 2] Sample.with_broken
              Sample.after_first_run (Done tt))
    as (o2 & evs & Hrun & Hquiet & Hdone).
  - vm_compute. solve_Permutation.
  - vm_compute. solve_Permutation.
  - vm_compute. reflexivity.
  - vm_compute. reflexivity.
  - intros f Hf. vm_compute in Hf.
    apply list_elem_of_In in Hf. simpl in Hf.
    destruct Hf as [<-|[<-|[<-|[]]]]; vm_compute; reflexivity.
  - intros _. vm_compute. discriminate.
  - exists evs. destruct (Hdone eq_refl) as [-> _].
    split; [exact Hrun | exact Hquiet].
Defined.


(** C5, as stated, fails when the sprite is named [types.ts] and the
    manifest is enabled: after a completed first run, with the discovered
    list and the icon files unchanged, the second run overwrites the file
    twice. *)
Lemma second_run_rewrites_clashing_outputs :
  let w := Sample.two_icons in
  let w1 := Sample.after_clash_run in
  Sample.run Sample.props_clash [0; 1] w = (Done tt, w1)
  /\ discovered Reference.glob_svg Sample.props_clash w1
     = discovered Reference.glob_svg Sample.props_clash w
  /\ iconContent w1 "icons" "arrow-right.svg" = iconContent w "icons" "arrow-right.svg"
  /\ iconContent w1 "icons" "close.svg" = iconContent w "icons" "close.svg"
  /\ exists w2,
       Sample.run Sample.props_clash [0; 1] w1 = (Done tt, w2)
       /\ List.filter isWrite (drop (length (events w1)) (events w2))
          = [EvWrite ["app"; "public"; "types.ts"]
               (spriteText Reference.querySvg Sample.props_clash w
                  ["arrow-right.svg"; "close.svg"]);
             EvWrite ["app"; "public"; "types.ts"]
               (typesText ["arrow-right.svg"; "close.svg"])].
Proof.
  split; [vm_compute; reflexivity |].
  split; [vm_compute; reflexivity |].
  split; [vm_compute; reflexivity |].
  split; [vm_compute; reflexivity |].
  eexists. split; vm_compute; reflexivity.
Qed.

(** ** More on the identifier deriver *)

Lemma upper_ascii_hyphen (c : ascii) :
  Ascii.eqb (Js.upper_ascii c) "-" = Ascii.eqb c "-".
Proof.
  destruct c as [[] [] [] [] [] [] [] []]; reflexivity.
Qed.

Lemma upper_ascii_idem (c : ascii) :
  Js.upper_ascii (Js.upper_ascii c) = Js.upper_ascii c.
Proof.
  destruct c as [[] [] [] [] [] [] [] []]; reflexivity.
Qed.

Lemma camelScan_no_hyphen (start : bool) (s : string) :
  occurs "-" (camelScan start s) = false.
Proof.
  revert start. induction s as [|c s IH]; intros start; [done |].
  simpl. destruct (Ascii.eqb c "-") eqn:Hc; [apply IH |].
  simpl. rewrite IH, orb_false_r.
  destruct start; [by rewrite upper_ascii_hyphen | done].
Qed.

Lemma camelScan_false_id (s : string) :
  occurs "-" s = false -> camelScan false s = s.
Proof.
  induction s as [|c s IH]; [done |].
  simpl. intros [Hc Hs]%orb_false_iff. rewrite Hc. by rewrite IH.
Qed.

Lemma camelScan_true_no_hyphen (s : string) :
  occurs "-" s = false -> camelScan true s = capitalize s.
Proof.
  destruct s as [|c s]; [done |].
  simpl. intros [Hc Hs]%orb_false_iff. rewrite Hc.
  by rewrite camelScan_false_id.
Qed.

Lemma capitalize_camelScan (s : string) :
  capitalize (camelScan true s) = camelScan true s.
Proof.
  induction s as [|c s IH]; [done |].
  simpl. destruct (Ascii.eqb c "-"); [exact IH |].
  rewrite capitalize_cons. by rewrite upper_ascii_idem.
Qed.

Lemma upper_ascii_ascii (c : ascii) :
  Nat.ltb (nat_of_ascii c) 128 = true ->
  Nat.ltb (nat_of_ascii (Js.upper_ascii c)) 128 = true.
Proof.
  destruct c as [[] [] [] [] [] [] [] []]; intros H; try done; by vm_compute.
Qed.

Lemma camelScan_ascii (start : bool) (s : string) :
  asciiText s = true -> asciiText (camelScan start s) = true.
Proof.
  revert start. induction s as [|c s IH]; intros start; [done |].
  simpl asciiText. intros [Hc Hs]%andb_true_iff.
  simpl camelScan. destruct (Ascii.eqb c "-"); [by apply IH |].
  simpl asciiText. rewrite IH by done. rewrite andb_true_r.
  destruct start; [by apply upper_ascii_ascii | done].
Qed.

(** X1: on ASCII text, the derived identifier is ASCII text that holds no
    hyphen, so deriving an identifier from a derived identifier gives it
    back. *)
Theorem fileNameToCamelCase_idempotent (fileName : string) :
  asciiText fileName = true ->
  asciiText (fileNameToCamelCase fileName) = true
  /\ occurs "-" (fileNameToCamelCase fileName) = false
  /\ fileNameToCamelCase (fileNameToCamelCase fileName)
     = fileNameToCamelCase fileName.
Proof.
  intros Hascii. rewrite !fileNameToCamelCase_scan.
  split; [by apply camelScan_ascii |].
  split; [apply camelScan_no_hyphen |].
  rewrite camelScan_true_no_hyphen by apply camelScan_no_hyphen.
  apply capitalize_camelScan.
Qed.

Lemma fileNameToCamelCase_idempotent_witness :
  fileNameToCamelCase (fileNameToCamelCase "arrow-right-2") = "ArrowRight2".
Proof.
  exact (proj2 (proj2 (fileNameToCamelCase_idempotent "arrow-right-2" eq_refl))).
Defined.

Lemma fileNameToCamelCase_concat (fileName : string) :
  fileNameToCamelCase fileName
  = String.concat EmptyString (map capitalize (Js.split "-" fileName)).
Proof. unfold fileNameToCamelCase. apply join_empty_sep. Qed.

Lemma fileNameToCamelCase_hyphen (a b : string) :
  fileNameToCamelCase (a +:+ "-" +:+ b)
  = fileNameToCamelCase a +:+ fileNameToCamelCase b.
Proof.
  rewrite !fileNameToCamelCase_concat.
  change ("-" +:+ b) with (String "-" b).
  by rewrite split_append, map_app, concat_app.
Qed.

(** X2: the deriver is computed segment by segment: on parts joined with
    hyphens it is the concatenation of the deriver applied to each part,
    also when a part holds hyphens itself. *)
Theorem fileNameToCamelCase_join (parts : list string) :
  fileNameToCamelCase (Js.join "-" parts)
  = String.concat EmptyString (map fileNameToCamelCase parts).
Proof.
  induction parts as [|x parts IH]; [done |].
  destruct parts as [|y parts].
  - reflexivity.
  - rewrite join_cons2, fileNameToCamelCase_hyphen, IH. reflexivity.
Qed.

(** X3: on ASCII text, the deriver does not see the case of the first
    character: a name and the same name with its first character in upper
    case ([a]..[z] taken to [A]..[Z]) get the same identifier. *)
Theorem fileNameToCamelCase_first_case (fileName : string) :
  asciiText fileName = true ->
  fileNameToCamelCase (upperFirst fileName) = fileNameToCamelCase fileName.
Proof.
  intros _. rewrite <- capitalize_upperFirst.
  rewrite !fileNameToCamelCase_scan.
  destruct fileName as [|c s]; [done |].
  rewrite capitalize_cons. simpl.
  rewrite upper_ascii_hyphen. destruct (Ascii.eqb c "-") eqn:Hc.
  - apply Ascii.eqb_eq in Hc as ->. reflexivity.
  - by rewrite upper_ascii_idem.
Qed.

Lemma fileNameToCamelCase_first_case_witness :
  fileNameToCamelCase "Close" = fileNameToCamelCase "close".
Proof.
  exact (fileNameToCamelCase_first_case "close" eq_refl).
Defined.
(** ** More on the manifest text *)

Lemma typesLines_oneLine (names : list string) :
  Forall (fun name => oneLine name = true) names ->
  Forall (fun line => occurs (ascii_of_nat 10) line = false) (typesLines names).
Proof.
  intros Hnames. unfold typesLines.
  assert (forall name, oneLine name = true -> occurs (ascii_of_nat 10) name = false)
    as Hone.
  { intros name. unfold oneLine. by intros ?%negb_true_iff. }
  repeat first [ apply Forall_app; split | apply Forall_cons; split | apply Forall_nil ];
    try reflexivity.
  - apply Forall_forall. intros line (name & -> & Hin)%list_elem_of_fmap.
    rewrite Forall_forall in Hnames.
    rewrite !occurs_append, (Hone name) by auto. reflexivity.
  - apply Forall_forall. intros line (name & -> & Hin)%list_elem_of_fmap.
    rewrite Forall_forall in Hnames.
    rewrite !occurs_append, (Hone name) by auto. reflexivity.
Qed.

Lemma append_length_inj_r (a b suffix : string) :
  a +:+ suffix = b +:+ suffix -> a = b.
Proof.
  revert b. induction a as [|x a IH]; intros [|y b] H.
  - done.
  - exfalso. apply (f_equal String.length) in H.
    rewrite append_nil_l, append_cons in H. simpl in H.
    rewrite length_append in H. lia.
  - exfalso. apply (f_equal String.length) in H.
    rewrite append_nil_l, append_cons in H. simpl in H.
    rewrite length_append in H. lia.
  - rewrite !append_cons in H. injection H as -> H. f_equal. by apply IH.
Qed.

Lemma map_inj_eq {A B} (f : A -> B) (a b : list A) :
  (forall x y, f x = f y -> x = y) -> map f a = map f b -> a = b.
Proof.
  intros Hinj. revert b. induction a as [|x a IH]; intros [|y b] H; try done.
  simpl in H. injection H as Hxy H. f_equal; auto.
Qed.

(** X4: when no name holds a line feed, the manifest text read back line
    by line is the header, one union member per name, the array opening, one
    array entry per name and the closing, that is two lines per name and seven
    more (the last one empty, for the final line feed); and two such lists of
    names with the same manifest text are the same list. *)
Theorem typesOutput_lines (names names' : list string) :
  Forall (fun name => oneLine name = true) names ->
  Js.split (ascii_of_nat 10) (typesOutput names) = typesLines names
  /\ length (typesLines names) = 2 * length names + 7
  /\ (Forall (fun name => oneLine name = true) names' ->
      typesOutput names = typesOutput names' -> names = names').
Proof.
  intros Hnames.
  assert (forall l, Forall (fun name => oneLine name = true) l ->
                    Js.split (ascii_of_nat 10) (typesOutput l) = typesLines l)
    as Hsplit.
  { intros l Hl. apply (split_join (ascii_of_nat 10) (typesLines l)); [done |].
    by apply typesLines_oneLine. }
  assert (forall l, length (typesLines l) = 2 * length l + 7) as Hlen.
  { intros l. unfold typesLines. rewrite !length_app, !length_map. simpl. lia. }
  split; [by apply Hsplit |]. split; [apply Hlen |].
  intros Hnames' Heq.
  assert (typesLines names = typesLines names') as Hlines.
  { by rewrite <- !Hsplit, Heq. }
  assert (length names = length names') as Hsame.
  { pose proof (f_equal length Hlines) as H. rewrite !Hlen in H. lia. }
  unfold typesLines in Hlines.
  apply app_inj_1 in Hlines as [_ Hlines]; [|done].
  apply app_inj_1 in Hlines as [Hunion _]; [|by rewrite !length_map].
  apply map_inj_eq in Hunion; [done |].
  intros x y Hxy.
  apply (inj (String.append "  | ")) in Hxy.
  apply (inj (String.append Js.dq)) in Hxy.
  by apply append_length_inj_r in Hxy.
Qed.

Lemma typesOutput_lines_witness :
  Js.split (ascii_of_nat 10) (typesOutput ["ArrowRight"; "Close"])
  = typesLines ["ArrowRight"; "Close"].
Proof.
  exact (proj1 (typesOutput_lines ["ArrowRight"; "Close"] []
                  ltac:(repeat constructor))).
Defined.

(** ** More on the idempotent writer *)

(** X5: the writer settles in one call: called again on the world it left,
    for the same file and content and with any message, it ends the same way
    and changes nothing; and when it throws, that is the failed write of the
    target, with the world as it was before the call (no notification). *)
Theorem writeIfChanged_repeat (p : Path.t) (content : string) (m m' : Message)
  (w w' : World) (o : Outcome unit) :
  writeIfChanged p content m w = (o, w') ->
  writeIfChanged p content m' w' = (o, w')
  /\ (forall e, o = Thrown e ->
        w' = w /\ e = WriteFailed (Path.resolve (proc_cwd w) p)).
Proof.
  intros Hrun.
  apply writeIfChanged_step in Hrun as (Hcwd & Hdirs & Hstep).
  destruct Hstep as [(-> & Hdisk & _)|(-> & -> & Hdiff & Hw)].
  - split; [|by intros e [=]].
    rewrite writeIfChanged_closed, Hcwd, Hdisk.
    by rewrite decide_True by apply lookup_insert_eq.
  - split; [|by intros e [= <-]].
    rewrite writeIfChanged_closed.
    by rewrite decide_False, Hw by done.
Qed.

Lemma writeIfChanged_repeat_witness :
  let p := Path.join "public" "sprite.svg" in
  let w' := snd (writeIfChanged p "new" (GeneratedSpritesheet p) Sample.stale) in
  writeIfChanged p "new" (GeneratedIconTypes p) w' = (Done tt, w')
  /\ disk w' !! ["app"; "public"; "sprite.svg"] = Some "new".
Proof.
  split; [|vm_compute; reflexivity].
  exact (proj1 (writeIfChanged_repeat (Path.join "public" "sprite.svg") "new"
                  (GeneratedSpritesheet (Path.join "public" "sprite.svg"))
                  (GeneratedIconTypes (Path.join "public" "sprite.svg"))
                  Sample.stale _ (Done tt) ltac:(vm_compute; reflexivity))).
Defined.

(** ** More on the symbol normalizer *)

Lemma kept_key (k : string) (v v' : option string) : kept (k, v) = kept (k, v').
Proof. reflexivity. Qed.

Lemma specSetId_filter (name : string) (attrs : list (string * option string)) :
  specSetId name (List.filter kept attrs) = List.filter kept (specSetId name attrs).
Proof.
  induction attrs as [|[k v] attrs IH]; [done |].
  simpl specSetId at 2. destruct (idKey k) eqn:Hk.
  - simpl List.filter. rewrite (idKey_kept k v Hk), (idKey_kept k (Some name) Hk).
    simpl. by rewrite Hk.
  - simpl List.filter. destruct (kept (k, v)); [|done].
    simpl. by rewrite Hk, IH.
Qed.

Lemma specSetId_specSetId (name name' : string)
  (attrs : list (string * option string)) :
  specSetId name' (specSetId name attrs) = specSetId name' attrs.
Proof.
  induction attrs as [|[k v] attrs IH]; [done |].
  simpl. destruct (idKey k) eqn:Hk; simpl; rewrite Hk; [done |].
  by rewrite IH.
Qed.

(** X6: the symbol normaliser applied to an element it produced only sets
    the identifier: under a second name the result is the one the original
    element gets under that name, and under the same name nothing changes
    (tag, attributes, attribute text and children alike). *)
Theorem symbolElement_again (name name' : string) (svg : Element) :
  symbolElement name' (symbolElement name svg) = symbolElement name' svg
  /\ symbolElement name (symbolElement name svg) = symbolElement name svg.
Proof.
  assert (forall n n', symbolElement n' (symbolElement n svg) = symbolElement n' svg)
    as H; [|by split].
  intros n n'.
  rewrite (symbolElement_shape n' (symbolElement n svg)).
  rewrite (symbolElement_shape n svg). cbn [rawAttributes innerHTML].
  rewrite specSetId_filter, filter_filter_same, specSetId_specSetId.
  by rewrite <- symbolElement_shape.
Qed.
(** ** More on the sprite *)

Section SpriteFacts.

Variable querySvg : string -> option Element.

Lemma fragment_count (w : World) (inDir : string) (found : list string) :
  length (filterBoolean (taskResults querySvg w inDir found))
  = length (List.filter (hasRoot querySvg w inDir) found).
Proof.
  induction found as [|file found IH]; [done |].
  rewrite taskResults_cons. simpl. unfold hasRoot at 1.
  destruct (iconContent w inDir file) as [input|]; [|exact IH].
  unfold symbolResult. destruct (querySvg input) as [svg|]; [|exact IH].
  rewrite fragment_truthy. simpl. by rewrite IH.
Qed.

(** X9: the sprite holds as many fragments as there are discovered files
    with a root element; when there is none, the sprite is still produced, as
    the five-line wrapper with an empty [defs]. *)
Theorem sprite_fragment_count (props : PluginProps) (w : World)
  (found : list string) :
  length (filterBoolean (taskResults querySvg w (inputDir props) found))
  = length (List.filter (hasRoot querySvg w (inputDir props)) found)
  /\ (List.filter (hasRoot querySvg w (inputDir props)) found = [] ->
      spriteText querySvg props w found
      = xmlDeclaration +:+ nl +:+ svgOpenTag +:+ nl +:+ "<defs>" +:+ nl
        +:+ "</defs>" +:+ nl +:+ "</svg>").
Proof.
  split; [apply fragment_count |].
  intros Hnone. pose proof (fragment_count w (inputDir props) found) as Hlen.
  rewrite Hnone in Hlen. simpl in Hlen.
  unfold spriteText, spriteOutput.
  destruct (filterBoolean _); [reflexivity | done].
Qed.

End SpriteFacts.

(** ** More on the concurrent batch *)

Lemma flat_map_seq_lookup {A B} (l : list A) (g : nat -> list B) (h : A -> list B) :
  (forall i x, l !! i = Some x -> g i = h x) ->
  flat_map g (seq 0 (length l)) = flat_map h l.
Proof.
  revert g. induction l as [|x l IH]; intros g Hg; [done |].
  simpl. rewrite (Hg 0 x) by done. f_equal.
  rewrite <- seq_shift, flat_map_concat_map, map_map, <- flat_map_concat_map.
  apply IH. intros i y Hi. by apply (Hg (S i)).
Qed.

Lemma warnings_of_files (querySvg : string -> option Element) (w : World)
  (inDir : string) (files : list string) :
  flat_map (taskWarning querySvg w inDir) files
  = map (fun f => EvLog (NoSvgTagFound f))
      (List.filter (lacksRoot querySvg w inDir) files).
Proof.
  induction files as [|f files IH]; [done |].
  simpl. unfold taskWarning at 1.
  destruct (lacksRoot querySvg w inDir f); simpl; by rewrite IH.
Qed.

(** X10: when every file can be read, the batch of per-file tasks, under
    any fair schedule and whatever was logged before, completes with the
    results in the order of the files (not of completion) and logs nothing
    but one warning per file without a root element, in some order. *)
Theorem batch_results_and_warnings (querySvg : string -> option Element)
  (inDir : string) (files : list string) (w : World) (sched : list nat)
  (pre : list Event) :
  fair (length files) sched ->
  (forall f, f ∈ files -> is_Some (iconContent w inDir f)) ->
  exists warnings,
    promise_all sched (map (symbolTask querySvg inDir) files) (logged pre w)
    = (Done (taskResults querySvg w inDir files), logged (pre ++ warnings) w)
    /\ warnings ≡ₚ map (fun f => EvLog (NoSvgTagFound f))
                     (List.filter (lacksRoot querySvg w inDir) files).
Proof.
  intros Hfair Hread. eexists. split; [by apply promise_all_symbolTasks |].
  unfold scheduleWarnings.
  rewrite (Permutation_flat_map _ Hfair).
  rewrite (flat_map_seq_lookup files _ (taskWarning querySvg w inDir)).
  - by rewrite warnings_of_files.
  - by intros i x ->.
Qed.

(** ** More on the orchestrator *)

Section BatchMore.

Variable querySvg : string -> option Element.
Variable inputDir : string.
Variable files : list string.
Variable w : World.

Lemma settle_unreadable_which (sched : list nat) :
  forall (slots : list (option (option string))) (pre : list Event)
         (i : nat) (file : string),
  i ∈ sched -> files !! i = Some file ->
  iconContent w inputDir file = None ->
  exists bad evs,
    bad ∈ files /\ iconContent w inputDir bad = None
    /\ settle (map (symbolTask querySvg inputDir) files) sched slots (logged pre w)
       = (Thrown (ReadFailed (iconPath w inputDir bad)), logged (pre ++ evs) w)
    /\ Forall (fun e => isWarning e = true) evs.
Proof.
  induction sched as [|j sched IH]; intros slots pre i file Hin Hfile Hnone.
  - by apply elem_of_nil in Hin.
  - simpl settle. rewrite lookup_map.
    destruct (files !! j) as [file'|] eqn:Hfile'; simpl.
    + unfold bind. rewrite symbolTask_logged.
      destruct (iconContent w inputDir file') as [input|] eqn:Hinput.
      * apply elem_of_cons in Hin as [->|Hin]; [congruence |].
        destruct (IH (<[j:=Some (symbolResult querySvg file' input)]> slots)
                    (pre ++ taskWarning querySvg w inputDir file') i file Hin Hfile Hnone)
          as (bad & evs & Hbad & Hbadnone & -> & Hquiet).
        exists bad, (taskWarning querySvg w inputDir file' ++ evs).
        split; [done |]. split; [done |]. split; [by rewrite app_assoc |].
        apply Forall_app. split; [|done].
        unfold taskWarning. destruct (lacksRoot _ _ _ _); by repeat constructor.
      * exists file', []. split; [by eapply list_elem_of_lookup_2 |].
        split; [done |]. by rewrite app_nil_r.
    + apply elem_of_cons in Hin as [->|Hin]; [congruence |].
      by eapply IH.
Qed.

Lemma promise_all_unreadable_which (sched : list nat) (pre : list Event)
  (file : string) :
  fair (length files) sched ->
  file ∈ files -> iconContent w inputDir file = None ->
  exists bad evs,
    bad ∈ files /\ iconContent w inputDir bad = None
    /\ promise_all sched (map (symbolTask querySvg inputDir) files) (logged pre w)
       = (Thrown (ReadFailed (iconPath w inputDir bad)), logged (pre ++ evs) w)
    /\ Forall (fun e => isWarning e = true) evs.
Proof.
  intros Hfair Hin Hnone.
  apply list_elem_of_lookup in Hin as [i Hi].
  assert (i ∈ sched) as Hsched.
  { apply (fair_covers _ _ Hfair). by eapply lookup_lt_Some. }
  destruct (settle_unreadable_which sched
              (replicate (length (map (symbolTask querySvg inputDir) files)) None)
              pre i file Hsched Hi Hnone)
    as (bad & evs & Hbad & Hbadnone & Hrun & Hquiet).
  exists bad, evs. split; [done |]. split; [done |]. split; [|done].
  unfold promise_all, bind. by rewrite Hrun.
Qed.

Lemma promise_all_world (sched : list nat) (pre : list Event)
  (o : Outcome (list (option string))) (w' : World) :
  promise_all sched (map (symbolTask querySvg inputDir) files) (logged pre w)
  = (o, w') ->
  exists evs, w' = logged (pre ++ evs) w
              /\ Forall (fun e => isWarning e = true) evs.
Proof.
  unfold promise_all, bind.
  destruct (settle _ sched _ (logged pre w)) as [[slots|e] w1] eqn:Hsettle.
  - apply settle_world in Hsettle as (evs & -> & Hquiet).
    destruct (all_filled slots); intros [= <- <-]; eauto.
  - apply settle_world in Hsettle as (evs & -> & Hquiet).
    intros [= <- <-]; eauto.
Qed.

End BatchMore.

Lemma writeIfChanged_frame (p : Path.t) (content : string) (m : Message)
  (v v' : World) (o : Outcome unit) :
  writeIfChanged p content m v = (o, v') ->
  proc_cwd v' = proc_cwd v
  /\ dirs v' = dirs v
  /\ (forall q, q <> Path.resolve (proc_cwd v) p -> disk v' !! q = disk v !! q)
  /\ (forall q, is_Some (disk v !! q) -> is_Some (disk v' !! q))
  /\ exists evs, events v' = events v ++ evs.
Proof.
  rewrite writeIfChanged_closed.
  destruct (decide _) as [Hsame|Hdiff]; [|destruct (writable _ _)];
    intros [= <- <-]; (split; [done |]); (split; [done |]).
  - split; [done |]. split; [done |]. exists []. by rewrite app_nil_r.
  - split; [|split].
    + intros q Hq. simpl. by rewrite lookup_insert_ne.
    + intros q Hq. simpl. rewrite lookup_insert. by case_decide.
    + by eexists.
  - split; [done |]. split; [done |]. exists []. by rewrite app_nil_r.
Qed.

Section OrchestratorFacts.

Variable glob_svg : World -> list string -> list string.
Variable querySvg : string -> option Element.

(** X11: what a run of the generator can touch, however it ends and
    whatever the schedule: the process directory is kept; directories are
    only added, and only the target of [mkdir] and the directories above it;
    every file other than the sprite (and the manifest when it is enabled) is
    as before; no file is removed; events are only appended. *)
Theorem generateIcons_frame (props : PluginProps) (sched : list nat)
  (w w1 : World) (o : Outcome unit) :
  let sp := Path.resolve (proc_cwd w) (spritePath props) in
  let tp := Path.resolve (proc_cwd w) (typesPath props) in
  generateIcons glob_svg querySvg props sched w = (o, w1) ->
  proc_cwd w1 = proc_cwd w
  /\ dirs w ⊆ dirs w1
  /\ dirs w1 ⊆ dirs w ∪ list_to_set (prefixes (madeDir props w))
  /\ (forall q, q <> sp -> (wantsTypes props = false \/ q <> tp) ->
                disk w1 !! q = disk w !! q)
  /\ (forall q, is_Some (disk w !! q) -> is_Some (disk w1 !! q))
  /\ exists evs, events w1 = events w ++ evs.
Proof.
  intros sp tp. rewrite generateIcons_unfold.
  destruct (discovered glob_svg props w) as [|file more].
  { intros [= <- <-]. repeat split; try done; [set_solver | by eexists]. }
  destruct (mkdirBlocked props w).
  { intros [= <- <-]. repeat split; try done; [set_solver |].
    exists []. by rewrite app_nil_r. }
  set (W := withDirs (prefixes (madeDir props w)) w).
  unfold bind at 1, generateSvgSprite at 1, bind at 1.
  destruct (promise_all sched _ (logged _ W)) as [[symbols|e] w0] eqn:Hall.
  - apply promise_all_world in Hall as (evs0 & -> & _).
    destruct (writeIfChanged (spritePath props) _ _ _) as [ob wb] eqn:Hsprite.
    apply writeIfChanged_frame in Hsprite
      as (Hcwd_b & Hdirs_b & Hdisk_b & Hkeep_b & evs_b & Hev_b).
    simpl in Hcwd_b, Hdirs_b, Hdisk_b, Hkeep_b, Hev_b. fold sp in Hdisk_b.
    destruct ob as [[]|e].
    + destruct (wantsTypes props) eqn:Hwt.
      * unfold generateTypes. intros Htypes.
        apply writeIfChanged_frame in Htypes
          as (Hcwd & Hdirs & Hdisk & Hkeep & evs_t & Hev).
        rewrite Hcwd_b in Hdisk. fold tp in Hdisk.
        split; [congruence |].
        split; [rewrite Hdirs, Hdirs_b; apply union_subseteq_l |].
        split; [by rewrite Hdirs, Hdirs_b |].
        split.
        { intros q Hsp [?|Htp]; [done |]. rewrite Hdisk, Hdisk_b; done. }
        split; [by intros q Hq; apply Hkeep, Hkeep_b |].
        eexists. rewrite Hev, Hev_b. by rewrite <- !app_assoc.
      * intros [= <- <-].
        split; [done |].
        split; [rewrite Hdirs_b; apply union_subseteq_l |].
        split; [by rewrite Hdirs_b |].
        split; [by intros q Hsp _; apply Hdisk_b |].
        split; [done |].
        eexists. rewrite Hev_b. by rewrite <- !app_assoc.
    + intros [= <- <-].
      split; [done |].
      split; [rewrite Hdirs_b; apply union_subseteq_l |].
      split; [by rewrite Hdirs_b |].
      split; [by intros q Hsp _; apply Hdisk_b |].
      split; [done |].
      eexists. rewrite Hev_b. by rewrite <- !app_assoc.
  - apply promise_all_world in Hall as (evs0 & -> & _).
    intros [= <- <-].
    split; [done |]. split; [apply union_subseteq_l |]. split; [done |].
    split; [done |]. split; [done |].
    eexists. simpl. reflexivity.
Qed.

(** X12: when a discovered file cannot be read and [mkdir] goes through
    (the text it is given is not empty and no file is in the way), the run,
    under any fair schedule, creates the directory, then throws the read
    failure of an unreadable discovered file; between the two it records
    nothing but warnings of skipped files: neither sprite nor manifest is
    written. *)
Theorem unreadable_file_aborts (props : PluginProps) (sched : list nat)
  (w : World) (file : string) :
  let found := discovered glob_svg props w in
  fair (length found) sched ->
  file ∈ found ->
  iconContent w (inputDir props) file = None ->
  mkdirBlocked props w = false ->
  exists bad evs,
    bad ∈ found
    /\ iconContent w (inputDir props) bad = None
    /\ generateIcons glob_svg querySvg props sched w
       = (Thrown (ReadFailed (iconPath w (inputDir props) bad)),
          logged (EvMkdir (madeDir props w) :: evs)
            (withDirs (prefixes (madeDir props w)) w))
    /\ Forall (fun e => exists skipped, e = EvLog (NoSvgTagFound skipped)) evs.
Proof.
  intros found Hfair Hin Hnone Hmk.
  rewrite generateIcons_unfold. fold found.
  destruct found as [|first more] eqn:Hfound; [by apply elem_of_nil in Hin |].
  rewrite Hmk.
  destruct (promise_all_unreadable_which querySvg (inputDir props) (first :: more)
              (withDirs (prefixes (madeDir props w)) w) sched
              [EvMkdir (madeDir props w)] file Hfair Hin Hnone)
    as (bad & evs & Hbad & Hbadnone & Hrun & Hquiet).
  exists bad, evs. split; [done |]. split; [done |]. split.
  - unfold bind at 1, generateSvgSprite at 1, bind at 1.
    by rewrite Hrun.
  - eapply Forall_impl; [exact Hquiet |].
    intros [[]| |]; try done. eauto.
Qed.

End OrchestratorFacts.
(** ** Paths *)

Lemma normalize_onto_app (abs : bool) (a b stack : list string) :
  Path.normalize_onto abs stack (a ++ b)
  = Path.normalize_onto abs (rev (Path.normalize_onto abs stack a)) b.
Proof.
  revert stack. induction a as [|s a IH]; intros stack.
  - simpl. by rewrite rev_involutive.
  - simpl.
    destruct (String.eqb s EmptyString || String.eqb s "."); [apply IH |].
    destruct (String.eqb s ".."); [|apply IH].
    destruct stack as [|top below]; [apply IH |].
    destruct (String.eqb top ".."); apply IH.
Qed.

Lemma nameSegment_spec (s : string) :
  nameSegment s = true ->
  String.eqb s EmptyString || String.eqb s "." = false
  /\ String.eqb s ".." = false.
Proof.
  unfold nameSegment.
  destruct (String.eqb s EmptyString), (String.eqb s "."), (String.eqb s "..");
    done.
Qed.

Lemma normalize_onto_names (abs : bool) (stack names : list string) :
  Forall (fun s => nameSegment s = true) names ->
  Path.normalize_onto abs stack names = rev stack ++ names.
Proof.
  intros Hnames. revert stack.
  induction Hnames as [|s names Hs _ IH]; intros stack.
  - simpl. by rewrite app_nil_r.
  - simpl. destruct (nameSegment_spec s Hs) as [-> ->].
    rewrite IH. simpl. by rewrite <- app_assoc.
Qed.

Lemma normalize_onto_clean (stack raw : list string) :
  Forall (fun s => nameSegment s = true) stack ->
  Forall (fun s => nameSegment s = true) (Path.normalize_onto true stack raw).
Proof.
  revert stack. induction raw as [|s raw IH]; intros stack Hstack.
  - simpl. by apply Forall_rev.
  - simpl.
    destruct (String.eqb s EmptyString || String.eqb s ".") eqn:Hskip; [by apply IH |].
    destruct (String.eqb s "..") eqn:Hup.
    + destruct stack as [|top below]; [by apply IH |].
      apply Forall_cons in Hstack as [Htop Hbelow].
      destruct (nameSegment_spec top Htop) as [_ ->]. by apply IH.
    + apply IH. apply Forall_cons. split; [|done].
      unfold nameSegment. apply orb_false_iff in Hskip as [-> ->]. by rewrite Hup.
Qed.

Lemma normalize_onto_ups (stack : list string) (n : nat) :
  Forall (fun s => nameSegment s = true) stack ->
  Path.normalize_onto true stack (replicate n "..") = rev (drop n stack).
Proof.
  revert stack. induction n as [|n IH]; intros stack Hstack; [done |].
  simpl. destruct stack as [|top below].
  - rewrite IH by done. by rewrite drop_nil.
  - apply Forall_cons in Hstack as [Htop Hbelow].
    destruct (nameSegment_spec top Htop) as [_ ->]. by apply IH.
Qed.

Lemma strip_common_spec (a b : list string) :
  exists common,
    a = common ++ fst (Path.strip_common a b)
    /\ b = common ++ snd (Path.strip_common a b).
Proof.
  revert b. induction a as [|x a IH]; intros b.
  - by exists [].
  - destruct b as [|y b]; [by exists [] |].
    simpl. destruct (String.eqb_spec x y) as [->|Hne]; [|by exists []].
    destruct (IH b) as (common & Ha & Hb).
    exists (y :: common). simpl. by rewrite <- Ha, <- Hb.
Qed.

Lemma resolve_clean (cwd : string) (p : Path.t) :
  Path.isAbsolute cwd = true ->
  (Path.absolute p = true ->
   Forall (fun s => nameSegment s = true) (Path.segments p)) ->
  Forall (fun s => nameSegment s = true) (Path.resolve cwd p).
Proof.
  intros Hcwd Habs. unfold Path.resolve.
  destruct (Path.absolute p); [by apply Habs |].
  apply normalize_onto_clean, Forall_rev.
  unfold Path.normalize. rewrite Hcwd. simpl.
  by apply normalize_onto_clean.
Qed.

Lemma resolve_normalize_clean (cwd s : string) :
  Path.isAbsolute cwd = true ->
  Forall (fun s => nameSegment s = true) (Path.resolve cwd (Path.normalize s)).
Proof.
  intros Hcwd. apply resolve_clean; [done |].
  unfold Path.normalize. simpl. intros ->. by apply normalize_onto_clean.
Qed.

(** Resolving [path.relative(from, to)] against [from] gives [to]. *)
Lemma relative_roundtrip (cwd from to : string) :
  Path.isAbsolute cwd = true ->
  Path.normalize_onto true (rev (Path.resolve cwd (Path.normalize from)))
    (Path.segments (Path.relative cwd from to))
  = Path.resolve cwd (Path.normalize to).
Proof.
  intros Hcwd. unfold Path.relative.
  pose proof (resolve_normalize_clean cwd from Hcwd) as Hfrom.
  pose proof (resolve_normalize_clean cwd to Hcwd) as Hto.
  destruct (strip_common_spec (Path.resolve cwd (Path.normalize from))
              (Path.resolve cwd (Path.normalize to))) as (common & Ha & Hb).
  destruct (Path.strip_common _ _) as [up down]. simpl in *.
  rewrite normalize_onto_app, normalize_onto_ups by by apply Forall_rev.
  rewrite rev_involutive.
  rewrite Ha at 1. rewrite rev_app_distr, drop_app_length'
    by by rewrite length_rev.
  rewrite Hb in Hto. apply Forall_app in Hto as [_ Hdown].
  rewrite normalize_onto_names by done.
  by rewrite rev_involutive, <- Hb.
Qed.

Lemma isAbsolute_append (a b : string) :
  a <> EmptyString -> Path.isAbsolute (a +:+ b) = Path.isAbsolute a.
Proof. by destruct a. Qed.

Lemma plainName_spec (file : string) :
  plainName file = true ->
  nameSegment file = true /\ Js.split "/" file = [file]
  /\ Path.isAbsolute file = false /\ file <> EmptyString.
Proof.
  unfold plainName. intros [Hname Hslash%negb_true_iff]%andb_true_iff.
  split; [done |]. split; [by apply split_no_sep |].
  destruct file as [|c file]; [done |]. split; [|done].
  simpl in Hslash. apply orb_false_iff in Hslash as [Hc _].
  apply Ascii.eqb_neq in Hc. simpl.
  destruct c as [[] [] [] [] [] [] [] []]; done.
Qed.

(** A plain file name joined to a directory: one more segment. *)
Lemma resolve_join_plain (cwd out file : string) :
  plainName file = true ->
  Path.resolve cwd (Path.join out file)
  = Path.resolve cwd (Path.normalize out) ++ [file].
Proof.
  intros (Hname & Hsplit & Habs & Hne)%plainName_spec.
  assert (forall abs stack raw,
            Path.normalize_onto abs stack (raw ++ [file])
            = Path.normalize_onto abs stack raw ++ [file]) as Hlast.
  { intros abs stack raw. rewrite normalize_onto_app.
    rewrite normalize_onto_names by (by repeat constructor).
    by rewrite rev_involutive. }
  unfold Path.join. destruct out as [|c out].
  - destruct file as [|c' file']; [done |].
    set (f := String c' file') in *.
    assert (forall abs stack, Path.normalize_onto abs stack [f] = rev stack ++ [f])
      as Hone.
    { intros abs stack. apply normalize_onto_names. by repeat constructor. }
    unfold Path.resolve, Path.normalize. rewrite Habs, Hsplit.
    cbn [Path.absolute Path.segments Path.isAbsolute Js.split].
    rewrite !Hone. reflexivity.
  - destruct file as [|c' file']; [done |].
    set (o := String c out) in *. set (f := String c' file') in *.
    unfold Path.resolve, Path.normalize.
    rewrite isAbsolute_append by done.
    change ("/" +:+ f) with (String "/" f).
    rewrite split_append, Hsplit, Hlast.
    cbn [Path.absolute Path.segments].
    destruct (Path.isAbsolute o); [done |].
    by rewrite Hlast.
Qed.

Lemma prefixes_self (p : list string) : p <> [] -> p ∈ prefixes p.
Proof.
  induction p as [|s p IH]; [done |]. intros _. simpl.
  destruct p as [|s' p]; [by left |].
  right. apply list_elem_of_fmap. exists (s' :: p). split; [done |].
  by apply IH.
Qed.

Lemma prefixes_length (p q : list string) :
  q ∈ prefixes p -> length q <= length p.
Proof.
  revert q. induction p as [|s p IH]; intros q Hq; [by apply elem_of_nil in Hq |].
  simpl in Hq. apply elem_of_cons in Hq as [->|Hq]; [simpl; lia |].
  apply list_elem_of_fmap in Hq as (q' & -> & Hq'). simpl.
  apply IH in Hq'. lia.
Qed.

Lemma writable_child (w : World) (dir : list string) (name : string) :
  dir ++ [name] ∉ dirs w ->
  writable (withDirs (prefixes dir) w) (dir ++ [name]) = true.
Proof.
  intros Hfree.
  assert (dirs (withDirs (prefixes dir) w) = dirs w ∪ list_to_set (prefixes dir))
    as Hdirs by reflexivity.
  unfold writable.
  destruct (dir ++ [name]) as [|s q] eqn:Hq; [by destruct dir |].
  rewrite <- Hq, removelast_last.
  apply andb_true_iff. split.
  - unfold is_dir. destruct dir as [|d dir]; [done |].
    apply bool_decide_eq_true. rewrite Hdirs. apply elem_of_union_r.
    apply elem_of_list_to_set. by apply prefixes_self.
  - apply negb_true_iff. unfold is_dir. rewrite Hq, <- Hq.
    apply bool_decide_eq_false. rewrite Hdirs.
    intros [Hin|Hin]%elem_of_union; [by rewrite Hq in Hin |].
    apply elem_of_list_to_set, prefixes_length in Hin.
    rewrite length_app in Hin. simpl in Hin. lia.
Qed.

(** ** The directory the run creates *)

Lemma normalize_onto_no_slash (abs : bool) (stack raw : list string) :
  Forall (fun s => occurs "/" s = false) stack ->
  Forall (fun s => occurs "/" s = false) raw ->
  Forall (fun s => occurs "/" s = false) (Path.normalize_onto abs stack raw).
Proof.
  intros Hstack Hraw. revert stack Hstack.
  induction Hraw as [|s raw Hs _ IH]; intros stack Hstack.
  - simpl. by apply Forall_rev.
  - simpl.
    destruct (String.eqb s EmptyString || String.eqb s "."); [by apply IH |].
    destruct (String.eqb s "..").
    + destruct stack as [|top below].
      * apply IH. destruct abs; by repeat constructor.
      * destruct (String.eqb top "..").
        -- apply IH. by constructor.
        -- apply IH. by apply Forall_cons in Hstack as [_ ?].
    + apply IH. by constructor.
Qed.

Lemma split_no_sep_inside (sep : ascii) (s : string) :
  Forall (fun x => occurs sep x = false) (Js.split sep s).
Proof.
  induction s as [|c s IH]; [by repeat constructor |].
  simpl. destruct (Ascii.eqb c sep) eqn:Hc; [by constructor |].
  destruct (Js.split sep s) as [|x l].
  { constructor; [simpl; by rewrite Hc | constructor]. }
  apply Forall_cons in IH as [Hx Hl]. constructor; [|done].
  simpl. by rewrite Hc, Hx.
Qed.

Lemma normalize_no_slash (s : string) :
  Forall (fun x => occurs "/" x = false) (Path.segments (Path.normalize s)).
Proof.
  unfold Path.normalize. simpl.
  apply normalize_onto_no_slash; [constructor | apply split_no_sep_inside].
Qed.

Lemma resolve_no_slash (cwd s : string) :
  Forall (fun x => occurs "/" x = false) (Path.resolve cwd (Path.normalize s)).
Proof.
  unfold Path.resolve.
  destruct (Path.absolute (Path.normalize s)); [apply normalize_no_slash |].
  apply normalize_onto_no_slash; [|apply normalize_no_slash].
  apply Forall_rev, normalize_no_slash.
Qed.

Lemma strip_common_same (a : list string) : Path.strip_common a a = ([], []).
Proof.
  induction a as [|x a IH]; [done |]. simpl. by rewrite String.eqb_refl.
Qed.

(** The segments of [path.relative]: steps up, then names. *)
Lemma relative_segments (cwd from to : string) :
  Path.isAbsolute cwd = true ->
  exists n down,
    Path.segments (Path.relative cwd from to) = replicate n ".." ++ down
    /\ Forall (fun s => nameSegment s = true) down
    /\ Forall (fun s => occurs "/" s = false) down
    /\ (n = 0 /\ down = [] <->
        Path.resolve cwd (Path.normalize from) = Path.resolve cwd (Path.normalize to)).
Proof.
  intros Habs. unfold Path.relative.
  pose proof (resolve_normalize_clean cwd to Habs) as Hclean.
  pose proof (resolve_no_slash cwd to) as Hslash.
  destruct (strip_common_spec (Path.resolve cwd (Path.normalize from))
              (Path.resolve cwd (Path.normalize to))) as (common & Ha & Hb).
  destruct (Path.strip_common _ _) as [up down] eqn:Hstrip. simpl in *.
  exists (length up), down. split; [done |].
  rewrite Hb in Hclean, Hslash.
  apply Forall_app in Hclean as [_ Hclean]. apply Forall_app in Hslash as [_ Hslash].
  split; [done |]. split; [done |]. split.
  - intros [Hup ->]. destruct up; [|done]. by rewrite Ha, Hb.
  - intros Heq. rewrite Heq, strip_common_same in Hstrip. by injection Hstrip as <- <-.
Qed.

Lemma normalize_onto_ups_relative (n : nat) (stack : list string) :
  Forall (fun s => s = "..") stack ->
  Path.normalize_onto false stack (replicate n "..")
  = rev stack ++ replicate n "..".
Proof.
  revert stack. induction n as [|n IH]; intros stack Hstack.
  - simpl. by rewrite app_nil_r.
  - simpl. destruct stack as [|top below].
    + rewrite IH by (by repeat constructor). done.
    + apply Forall_cons in Hstack as [-> Hbelow]. simpl String.eqb.
      rewrite IH by (by repeat constructor). simpl. by rewrite <- !app_assoc.
Qed.

Lemma isAbsolute_join (s : string) (l : list string) :
  s <> EmptyString -> occurs "/" s = false ->
  Path.isAbsolute (Js.join "/" (s :: l)) = false.
Proof.
  intros Hne Hslash. destruct s as [|c s]; [done |].
  simpl in Hslash. apply orb_false_iff in Hslash as [Hc _].
  assert (forall rest, Path.isAbsolute (String c rest) = false) as Hhead.
  { intros rest. simpl. apply Ascii.eqb_neq in Hc.
    destruct c as [[] [] [] [] [] [] [] []]; done. }
  destruct l; [apply Hhead |]. rewrite join_cons2, append_cons. apply Hhead.
Qed.

(** [path.normalize] leaves the text of [path.relative] as it is. *)
Lemma normalize_relativeText (cwd from to : string) :
  Path.isAbsolute cwd = true ->
  Path.normalize (Path.relativeText cwd from to) = Path.relative cwd from to.
Proof.
  intros Habs. unfold Path.relativeText.
  destruct (relative_segments cwd from to Habs) as (n & down & Hsegs & Hname & Hslash & _).
  assert (Path.relative cwd from to
          = Path.mk false (Path.segments (Path.relative cwd from to))) as ->.
  { unfold Path.relative. by destruct (Path.strip_common _ _). }
  cbn [Path.segments]. rewrite Hsegs.
  destruct (replicate n ".." ++ down) as [|s l] eqn:Hlist; [done |].
  assert (s <> EmptyString /\ occurs "/" s = false) as [Hne Hs].
  { destruct n as [|n]; simpl in Hlist.
    - subst down. apply Forall_cons in Hname as [Hn _].
      apply Forall_cons in Hslash as [? _]. split; [|done].
      intros ->. done.
    - by injection Hlist as <- _. }
  unfold Path.normalize. rewrite isAbsolute_join by done. f_equal.
  change "/" with (String "/"%char EmptyString) at 1.
  rewrite split_join.
  - rewrite <- Hlist, normalize_onto_app.
    rewrite normalize_onto_ups_relative by constructor. simpl rev.
    rewrite normalize_onto_names by done.
    by rewrite rev_involutive.
  - done.
  - rewrite <- Hlist. apply Forall_app. split; [|done].
    apply Forall_forall. intros x Hx. by apply elem_of_replicate in Hx as [-> _].
Qed.

(** [path.relative] returns the empty text exactly for the same directory. *)
Lemma relativeText_empty (cwd from to : string) :
  Path.isAbsolute cwd = true ->
  Path.relativeText cwd from to = EmptyString
  <-> Path.resolve cwd (Path.normalize from) = Path.resolve cwd (Path.normalize to).
Proof.
  intros Habs. unfold Path.relativeText.
  destruct (relative_segments cwd from to Habs)
    as (n & down & -> & Hname & Hslash & Hsame).
  rewrite <- Hsame. split.
  - intros Hempty. destruct n as [|n].
    + destruct down as [|s down]; [done |]. exfalso.
      apply Forall_cons in Hname as [Hs _].
      refine (join_not_empty "/" s (s :: down) _ _ Hempty); [by left |].
      by intros ->.
    + exfalso.
      by refine (join_not_empty "/" ".." (".." :: replicate n ".." ++ down) _ _ Hempty);
        [left |].
  - by intros [-> ->].
Qed.

Section OrdinaryRun.

Variable glob_svg : World -> list string -> list string.
Variable querySvg : string -> option Element.

Lemma madeDir_under_cwd (props : PluginProps) (w : World) :
  Path.isAbsolute (proc_cwd w) = true ->
  Path.resolve (proc_cwd w) (Path.normalize (cwdToUse props w))
  = Path.resolve (proc_cwd w) (Path.normalize (proc_cwd w)) ->
  madeDir props w = Path.resolve (proc_cwd w) (Path.normalize (outputDir props)).
Proof.
  intros Habs Hsame.
  unfold madeDir, mkdirText. rewrite normalize_relativeText by done.
  rewrite <- (relative_roundtrip (proc_cwd w) (cwdToUse props w) (outputDir props))
    by done.
  rewrite Hsame.
  assert (Path.absolute (Path.relative (proc_cwd w) (cwdToUse props w)
                           (outputDir props)) = false) as Hrel.
  { unfold Path.relative. by destruct (Path.strip_common _ _). }
  unfold Path.resolve at 1. rewrite Hrel.
  unfold Path.resolve, Path.normalize. by rewrite Habs.
Qed.

(** Without [cwd], [mkdir] is blocked exactly when the output directory is
    the process directory or a file is in the way. *)
Lemma mkdirBlocked_under_cwd (props : PluginProps) (w : World) :
  let out := Path.resolve (proc_cwd w) (Path.normalize (outputDir props)) in
  let here := Path.resolve (proc_cwd w) (Path.normalize (proc_cwd w)) in
  cwd props = None ->
  Path.isAbsolute (proc_cwd w) = true ->
  madeDir props w = out
  /\ (mkdirBlocked props w = false
      <-> out <> here /\ forall p, p ∈ prefixes out -> disk w !! p = None).
Proof.
  intros out here Hcwd Habs.
  assert (madeDir props w = out) as Hmk.
  { apply madeDir_under_cwd; [done |]. unfold cwdToUse. by rewrite Hcwd. }
  split; [done |].
  rewrite mkdirBlocked_false, Hmk, not_blocked.
  unfold mkdirText, cwdToUse. rewrite Hcwd. simpl default.
  rewrite (relativeText_empty _ _ _ Habs). fold out here.
  split; intros [Hne Hfree]; (split; [|done]); intros Heq; by apply Hne.
Qed.

(** After [mkdir] has gone through, the directories are those of before
    and the directory asked for with the ones above it, however the run
    ends. *)
Lemma generateIcons_dirs (props : PluginProps) (sched : list nat)
  (w w1 : World) (o : Outcome unit) :
  discovered glob_svg props w <> [] ->
  mkdirBlocked props w = false ->
  generateIcons glob_svg querySvg props sched w = (o, w1) ->
  dirs w1 = dirs w ∪ list_to_set (prefixes (madeDir props w))
  /\ exists evs, events w1 = events w ++ EvMkdir (madeDir props w) :: evs.
Proof.
  intros Hne Hmk. rewrite generateIcons_unfold.
  destruct (discovered glob_svg props w) as [|file more]; [done |].
  rewrite Hmk.
  set (W := withDirs (prefixes (madeDir props w)) w).
  unfold bind at 1, generateSvgSprite at 1, bind at 1.
  destruct (promise_all sched _ (logged _ W)) as [[symbols|e] w0] eqn:Hall.
  - apply promise_all_world in Hall as (evs0 & -> & _).
    destruct (writeIfChanged (spritePath props) _ _ _) as [ob wb] eqn:Hsprite.
    apply writeIfChanged_frame in Hsprite
      as (_ & Hdirs_b & _ & _ & evs_b & Hev_b).
    simpl in Hdirs_b, Hev_b.
    destruct ob as [[]|e].
    + destruct (wantsTypes props).
      * unfold generateTypes. intros Htypes.
        apply writeIfChanged_frame in Htypes as (_ & Hdirs & _ & _ & evs_t & Hev).
        split; [by rewrite Hdirs, Hdirs_b |].
        exists (evs0 ++ evs_b ++ evs_t). rewrite Hev, Hev_b.
        by rewrite <- !app_assoc.
      * intros [= <- <-]. split; [done |].
        exists (evs0 ++ evs_b). rewrite Hev_b. by rewrite <- !app_assoc.
    + intros [= <- <-]. split; [done |].
      exists (evs0 ++ evs_b). rewrite Hev_b. by rewrite <- !app_assoc.
  - apply promise_all_world in Hall as (evs0 & -> & _).
    intros [= <- <-]. split; [done |]. by exists evs0.
Qed.

(** X13: what [mkdir] does in a run without [cwd] from an absolute process
    directory, over a non-empty discovery.  When the output directory is the
    process directory itself, the relative text handed to [mkdir] is empty:
    the run is rejected there and nothing changes.  When a file is in the
    way, the run is rejected there too.  Otherwise, however the run ends
    afterwards, the directories are those of before and the output
    directory with the ones above it, and the request is on record. *)
Theorem mkdir_targets_outputDir (props : PluginProps) (sched : list nat)
  (w w1 : World) (o : Outcome unit) :
  let out := Path.resolve (proc_cwd w) (Path.normalize (outputDir props)) in
  let here := Path.resolve (proc_cwd w) (Path.normalize (proc_cwd w)) in
  cwd props = None ->
  Path.isAbsolute (proc_cwd w) = true ->
  discovered glob_svg props w <> [] ->
  generateIcons glob_svg querySvg props sched w = (o, w1) ->
  (out = here -> o = Thrown (MkdirFailed out) /\ w1 = w)
  /\ ((exists p, p ∈ prefixes out /\ is_Some (disk w !! p)) ->
      o = Thrown (MkdirFailed out) /\ w1 = w)
  /\ (out <> here -> (forall p, p ∈ prefixes out -> disk w !! p = None) ->
      dirs w1 = dirs w ∪ list_to_set (prefixes out)
      /\ exists evs, events w1 = events w ++ EvMkdir out :: evs).
Proof.
  intros out here Hcwd Habs Hne Hrun.
  destruct (mkdirBlocked_under_cwd props w Hcwd Habs) as [Hmk Hblocked].
  fold out here in Hmk, Hblocked.
  assert (mkdirBlocked props w = true -> o = Thrown (MkdirFailed out) /\ w1 = w)
    as Hreject.
  { intros Htrue. rewrite generateIcons_unfold in Hrun.
    destruct (discovered glob_svg props w); [done |].
    rewrite Htrue, Hmk in Hrun. by injection Hrun as <- <-. }
  split; [|split].
  - intros Heq. apply Hreject. apply not_false_iff_true.
    intros [Hdiff _]%Hblocked. by apply Hdiff.
  - intros (p & Hp & [c Hc]). apply Hreject. apply not_false_iff_true.
    intros [_ Hfree]%Hblocked. by rewrite Hfree in Hc.
  - intros Hdiff Hfree. rewrite <- Hmk.
    apply (generateIcons_dirs props sched w w1 o); [done | | done].
    by apply Hblocked.
Qed.

(** X14: called without [cwd], from an absolute process directory, with an
    output directory that is not the process directory, a plain file name,
    a non-empty discovery of readable files, no file in the way of the
    output directory and no directory in the way of the two outputs, the
    run completes under any fair schedule; it creates exactly the output
    directory and the missing directories above it, and leaves the manifest
    (when enabled) and the sprite (unless the manifest took its place)
    inside it. *)
Theorem ordinary_run_completes (props : PluginProps) (sched : list nat)
  (w : World) :
  let found := discovered glob_svg props w in
  let name := default "sprite.svg" (fileName props) in
  let out := Path.resolve (proc_cwd w) (Path.normalize (outputDir props)) in
  cwd props = None ->
  Path.isAbsolute (proc_cwd w) = true ->
  out <> Path.resolve (proc_cwd w) (Path.normalize (proc_cwd w)) ->
  plainName name = true ->
  found <> [] ->
  fair (length found) sched ->
  (forall f, f ∈ found -> is_Some (iconContent w (inputDir props) f)) ->
  (forall p, p ∈ prefixes out -> disk w !! p = None) ->
  out ++ [name] ∉ dirs w ->
  out ++ ["types.ts"] ∉ dirs w ->
  exists w',
    generateIcons glob_svg querySvg props sched w = (Done tt, w')
    /\ dirs w' = dirs w ∪ list_to_set (prefixes out)
    /\ (wantsTypes props = true ->
        disk w' !! (out ++ ["types.ts"]) = Some (typesText found))
    /\ ((wantsTypes props = true -> name <> "types.ts") ->
        disk w' !! (out ++ [name]) = Some (spriteText querySvg props w found)).
Proof.
  intros found name out Hcwd Habs Hdiff Hplain Hne Hfair Hread Hfree Hsp Htp.
  destruct (mkdirBlocked_under_cwd props w Hcwd Habs) as [Hmk Hblocked].
  fold out in Hmk, Hblocked.
  assert (Path.resolve (proc_cwd w) (spritePath props) = out ++ [name]) as Hsprite.
  { by apply resolve_join_plain. }
  assert (Path.resolve (proc_cwd w) (typesPath props) = out ++ ["types.ts"])
    as Htypes.
  { by apply resolve_join_plain. }
  destruct found as [|file more] eqn:Hfound; [done |].
  assert (outputsWritable props w) as Hfs.
  { unfold outputsWritable. rewrite Hmk, Hsprite, Htypes.
    split; [by apply Hblocked |].
    split; [by apply writable_child |]. intros _. by apply writable_child. }
  destruct (generateIcons_completes glob_svg querySvg props sched w file more
              Hfound Hfair Hread Hfs) as (w' & rest & Hrun & _).
  destruct (generateIcons_Done_shape glob_svg querySvg props sched w w' file more
              Hfound Hfair Hrun) as (_ & Hdirs & Hdisk & _).
  rewrite Hsprite, Htypes in Hdisk. rewrite Hmk in Hdirs.
  exists w'. split; [done |]. split; [done |]. split.
  - intros Hwt. by rewrite Hdisk, Hwt, lookup_insert_eq.
  - intros Hdistinct. rewrite Hdisk. destruct (wantsTypes props).
    + rewrite lookup_insert_ne, lookup_insert_eq; [done |].
      intros Heq. apply app_inj_tail in Heq as [_ Heq]. by apply Hdistinct.
    + by rewrite lookup_insert_eq.
Qed.

End OrdinaryRun.
(** ** The hook that runs the generator once *)








Section HookFacts.

Variable glob_svg : World -> list string -> list string.
Variable querySvg : string -> option Element.


End HookFacts.

(** ** Schedules *)

Lemma writeIfChanged_sameFiles (p : Path.t) (content : string) (m : Message)
  (v v' : World) :
  sameFiles v v' ->
  fst (writeIfChanged p content m v) = fst (writeIfChanged p content m v')
  /\ sameFiles (snd (writeIfChanged p content m v))
       (snd (writeIfChanged p content m v')).
Proof.
  intros (Hcwd & Hdirs & Hdisk).
  rewrite !writeIfChanged_closed.
  rewrite <- Hcwd, <- Hdisk, (writable_dirs v v') by done.
  destruct (decide _); [done |].
  destruct (writable v _); [|done].
  split; [done |]. unfold sameFiles, afterWrite. simpl. by rewrite Hdisk.
Qed.

Section ScheduleFacts.

Variable glob_svg : World -> list string -> list string.
Variable querySvg : string -> option Element.

Lemma generateIcons_run_form (props : PluginProps) (sched : list nat)
  (w : World) (file : string) (more : list string) :
  discovered glob_svg props w = file :: more ->
  fair (length (file :: more)) sched ->
  (forall f, f ∈ file :: more -> is_Some (iconContent w (inputDir props) f)) ->
  mkdirBlocked props w = false ->
  generateIcons glob_svg querySvg props sched w
  = match writeIfChanged (spritePath props)
            (spriteText querySvg props w (file :: more))
            (GeneratedSpritesheet (outputDirRelative props w))
            (logged (EvMkdir (madeDir props w)
                     :: scheduleWarnings querySvg w (inputDir props) (file :: more) sched)
               (withDirs (prefixes (madeDir props w)) w)) with
    | (Done _, v) =>
        if wantsTypes props
        then writeIfChanged (typesPath props) (typesText (file :: more))
               (GeneratedIconTypes (typesPath props)) v
        else (Done tt, v)
    | (Thrown e, v) => (Thrown e, v)
    end.
Proof.
  intros Hfound Hfair Hread Hmk.
  rewrite generateIcons_unfold, Hfound, Hmk.
  unfold bind at 1. rewrite generateSvgSprite_run by done.
  change (spriteOutput (taskResults querySvg (withDirs (prefixes (madeDir props w)) w)
                          (inputDir props) (file :: more)))
    with (spriteText querySvg props w (file :: more)).
  change (logged ([EvMkdir (madeDir props w)]
                  ++ scheduleWarnings querySvg (withDirs (prefixes (madeDir props w)) w)
                       (inputDir props) (file :: more) sched)
            (withDirs (prefixes (madeDir props w)) w))
    with (logged (EvMkdir (madeDir props w)
                  :: scheduleWarnings querySvg w (inputDir props) (file :: more) sched)
            (withDirs (prefixes (madeDir props w)) w)).
  destruct (writeIfChanged _ _ _ _) as [[[]|e] v]; [|done].
  by destruct (wantsTypes props).
Qed.

(** X17: when every discovered file can be read, two runs from the same
    world under two fair schedules end with the same outcome and leave the
    same directories and files (the console aside). *)
Theorem schedule_does_not_matter (props : PluginProps) (s1 s2 : list nat)
  (w : World) :
  let found := discovered glob_svg props w in
  fair (length found) s1 ->
  fair (length found) s2 ->
  (forall f, f ∈ found -> is_Some (iconContent w (inputDir props) f)) ->
  fst (generateIcons glob_svg querySvg props s1 w)
  = fst (generateIcons glob_svg querySvg props s2 w)
  /\ sameFiles (snd (generateIcons glob_svg querySvg props s1 w))
       (snd (generateIcons glob_svg querySvg props s2 w)).
Proof.
  intros found Hfair1 Hfair2 Hread.
  destruct found as [|file more] eqn:Hfound.
  { rewrite !generateIcons_unfold. fold found. by rewrite Hfound. }
  destruct (mkdirBlocked props w) eqn:Hmk.
  { rewrite !generateIcons_unfold. fold found. by rewrite Hfound, Hmk. }
  rewrite !(generateIcons_run_form props _ w file more) by done.
  set (text := spriteText _ _ _ _). set (m := GeneratedSpritesheet _).
  set (W := withDirs (prefixes (madeDir props w)) w).
  set (V1 := logged (_ :: scheduleWarnings _ _ _ _ s1) W).
  set (V2 := logged (_ :: scheduleWarnings _ _ _ _ s2) W).
  assert (sameFiles V1 V2) as Hsame by done.
  destruct (writeIfChanged_sameFiles (spritePath props) text m V1 V2 Hsame)
    as [Ho Hw].
  destruct (writeIfChanged (spritePath props) text m V1) as [o1 v1].
  destruct (writeIfChanged (spritePath props) text m V2) as [o2 v2].
  simpl in Ho, Hw. subst o2.
  destruct o1 as [[]|e]; [|done].
  destruct (wantsTypes props); [|done].
  by apply writeIfChanged_sameFiles.
Qed.

End ScheduleFacts.

(** ** Further worked instances *)

Lemma batch_results_and_warnings_witness :
  exists warnings,
    promise_all [2; 0; 1]
      (map (symbolTask Reference.querySvg "icons")
         ["arrow-right.svg"; "broken.svg"; "close.svg"])
      (logged [] Sample.with_broken)
    = (Done (taskResults Reference.querySvg Sample.with_broken "icons"
               ["arrow-right.svg"; "broken.svg"; "close.svg"]),
       logged ([] ++ warnings) Sample.with_broken)
    /\ warnings ≡ₚ [EvLog (NoSvgTagFound "broken.svg")].
Proof.
  apply (batch_results_and_warnings Reference.querySvg "icons"
           ["arrow-right.svg"; "broken.svg"; "close.svg"] Sample.with_broken
           [2; 0; 1] []).
  - vm_compute. solve_Permutation.
  - intros f Hf. apply list_elem_of_In in Hf. simpl in Hf.
    destruct Hf as [<-|[<-|[<-|[]]]]; vm_compute; eexists; reflexivity.
Defined.

Lemma generateIcons_frame_witness :
  disk (snd (Sample.run Sample.props [1; 0] Sample.two_icons))
    !! ["app"; "icons"; "close.svg"]
  = disk Sample.two_icons !! ["app"; "icons"; "close.svg"].
Proof.
  refine (proj1 (proj2 (proj2 (proj2
            (generateIcons_frame Reference.glob_svg Reference.querySvg
               Sample.props [1; 0] Sample.two_icons
               (snd (Sample.run Sample.props [1; 0] Sample.two_icons))
               (Done tt) _)))) ["app"; "icons"; "close.svg"] _ _).
  - vm_compute. reflexivity.
  - vm_compute. discriminate.
  - right. vm_compute. discriminate.
Defined.

Lemma unreadable_file_aborts_witness :
  exists bad evs,
    generateIcons Fixture.stale_listing Reference.querySvg Sample.props [0]
      Sample.two_icons
    = (Thrown (ReadFailed (iconPath Sample.two_icons "icons" bad)),
       logged (EvMkdir (madeDir Sample.props Sample.two_icons) :: evs)
         (withDirs (prefixes (madeDir Sample.props Sample.two_icons))
            Sample.two_icons))
    /\ Forall (fun e => exists skipped, e = EvLog (NoSvgTagFound skipped)) evs.
Proof.
  destruct (unreadable_file_aborts Fixture.stale_listing Reference.querySvg
              Sample.props [0] Sample.two_icons "ghost.svg")
    as (bad & evs & _ & _ & Hrun & Hquiet).
  - vm_compute. solve_Permutation.
  - vm_compute. apply list_elem_of_In. simpl. auto.
  - vm_compute. reflexivity.
  - vm_compute. reflexivity.
  - exists bad, evs. split; [exact Hrun | exact Hquiet].
Defined.

Lemma mkdir_targets_outputDir_witness :
  fst (Sample.run Fixture.props_here [0; 1] Sample.two_icons)
  = Thrown (MkdirFailed ["app"])
  /\ snd (Sample.run Fixture.props_here [0; 1] Sample.two_icons) = Sample.two_icons.
Proof.
  refine (proj1 (mkdir_targets_outputDir Reference.glob_svg Reference.querySvg
                   Fixture.props_here [0; 1] Sample.two_icons
                   (snd (Sample.run Fixture.props_here [0; 1] Sample.two_icons))
                   (fst (Sample.run Fixture.props_here [0; 1] Sample.two_icons))
                   _ _ _ _) _).
  - reflexivity.
  - vm_compute. reflexivity.
  - vm_compute. discriminate.
  - apply surjective_pairing.
  - vm_compute. reflexivity.
Defined.

Lemma ordinary_run_completes_witness :
  exists w',
    Sample.run Sample.props [1; 0] Sample.two_icons = (Done tt, w')
    /\ disk w' !! ["app"; "public"; "types.ts"]
       = Some (typesText ["arrow-right.svg"; "close.svg"]).
Proof.
  destruct (ordinary_run_completes Reference.glob_svg Reference.querySvg
              Sample.props [1; 0] Sample.two_icons)
    as (w' & Hrun & _ & Htypes & _).
  - reflexivity.
  - vm_compute. reflexivity.
  - vm_compute. discriminate.
  - vm_compute. reflexivity.
  - vm_compute. discriminate.
  - vm_compute. solve_Permutation.
  - intros f Hf. vm_compute in Hf. apply list_elem_of_In in Hf. simpl in Hf.
    destruct Hf as [<-|[<-|[]]]; vm_compute; eexists; reflexivity.
  - intros p Hp. vm_compute in Hp. apply list_elem_of_In in Hp. simpl in Hp.
    destruct Hp as [<-|[<-|[]]]; vm_compute; reflexivity.
  - vm_compute. discriminate.
  - vm_compute. discriminate.
  - exists w'. split; [exact Hrun |]. exact (Htypes eq_refl).
Defined.


Lemma schedule_does_not_matter_witness :
  disk (snd (Sample.run Sample.props [2; 0; 1] Sample.with_broken))
  = disk (snd (Sample.run Sample.props [0; 1; 2] Sample.with_broken)).
Proof.
  refine (proj2 (proj2 (proj2
            (schedule_does_not_matter Reference.glob_svg Reference.querySvg
               Sample.props [2; 0; 1] [0; 1; 2] Sample.with_broken _ _ _)))).
  - vm_compute. solve_Permutation.
  - vm_compute. solve_Permutation.
  - intros f Hf. vm_compute in Hf. apply list_elem_of_In in Hf. simpl in Hf.
    destruct Hf as [<-|[<-|[<-|[]]]]; vm_compute; eexists; reflexivity.
Defined.

Lemma sprite_fragment_count_witness :
  spriteText Reference.querySvg Sample.props Sample.with_broken ["broken.svg"]
  = xmlDeclaration +:+ nl +:+ svgOpenTag +:+ nl +:+ "<defs>" +:+ nl
    +:+ "</defs>" +:+ nl +:+ "</svg>".
Proof.
  refine (proj2 (sprite_fragment_count Reference.querySvg Sample.props
                   Sample.with_broken ["broken.svg"]) _).
  vm_compute. reflexivity.
Defined.
